(** * Verification of the qiskit tutorial notebooks

    A shallow embedding of the code cells of the exercise notebooks
    (Quantum Fourier Transform, Quantum Phase Estimation, the connection to
    the hardware provider and QPE on hardware), and the properties the
    specification states about them.

    Calls into the quantum SDK, numpy's random generator and the plotting
    library are external: they appear as section variables, and circuits are
    the sequences of instructions the notebook code appends. *)

From Stdlib Require Import ZArith QArith Qround Qpower List String Ascii Bool Lia.
From Stdlib Require Import Reals Lra.
From Stdlib Require Lqa.
Import ListNotations.

Set Implicit Arguments.

Close Scope Q_scope.

(** ** Python values and exceptions shared by the cells *)

(** Where an exception comes from: an external library (the quantum SDK,
    numpy, the plotting library), a [raise] statement written in a notebook,
    or the Python run time (unbound name, missing key, [int] of a non
    digit). *)
Inductive origin := FromSdk | FromNotebook | FromRuntime.

Record exn := Exn { exn_origin : origin; exn_class : string; exn_msg : string }.

Inductive result (A : Type) :=
| Ok (a : A)
| Raise (e : exn).
Arguments Ok {A} a.
Arguments Raise {A} e.

Definition bind {A B} (r : result A) (k : A -> result B) : result B :=
  match r with
  | Ok a => k a
  | Raise e => Raise e
  end.

Notation "x <- r ;; k" := (bind r (fun x => k))
  (at level 61, r at next level, right associativity).

Definition raised_by {A} (o : origin) (r : result A) : Prop :=
  match r with
  | Ok _ => False
  | Raise e => exn_origin e = o
  end.

(** ** Bitstrings, indices and phases (QPE on hardware, utility cell) *)

Module Bitstrings.

Local Open Scope string_scope.

(** [int(b)] for a one character string [b]: the value of a decimal digit,
    a [ValueError] otherwise. *)
Definition int_of_char (c : ascii) : result Z :=
  let n := nat_of_ascii c in
  if (48 <=? n)%nat && (n <=? 57)%nat
  then Ok (Z.of_nat (n - 48))
  else Raise (Exn FromRuntime "ValueError" "invalid literal for int()").

(** [2 ** e] on Python integers: an integer for [0 <= e], the float
    [2.0 ** e] otherwise, which is exact. *)
Definition pow2 (e : Z) : Q := Qpower 2 e.

Fixpoint mapM {A B} (f : A -> result B) (l : list A) : result (list B) :=
  match l with
  | [] => Ok []
  | a :: l' => b <- f a ;; bs <- mapM f l' ;; Ok (b :: bs)
  end.

Definition chars (s : string) : list ascii := list_ascii_of_string s.

(** [np.sum] of a list of exact values. *)
Definition np_sum (l : list Q) : Q := fold_left Qplus l 0%Q.

(** The argument of [from_bitstring] is a [str] or anything else. *)
Inductive bitstring_arg :=
| BStr (s : string)
| BOther (v : Q).

(** [from_bitstring]: for a [str], the sum over its characters [b] of
    [2 ** (n_qubits - 1 - int(b))]; any other value is returned as it is. *)
Definition from_bitstring (n_qubits : nat) (bitstring : bitstring_arg)
  : result Q :=
  match bitstring with
  | BStr s =>
      terms <- mapM (fun b => v <- int_of_char b ;;
                              Ok (pow2 (Z.of_nat n_qubits - 1 - v)%Z))
                    (chars s) ;;
      Ok (np_sum terms)
  | BOther v => Ok v
  end.

(** Binary digits of a positive number, most significant first. *)
Fixpoint bin_pos (p : positive) (acc : string) : string :=
  match p with
  | xH => String "1" acc
  | xO p' => bin_pos p' (String "0" acc)
  | xI p' => bin_pos p' (String "1" acc)
  end.

Definition bin (n : Z) : string :=
  match n with
  | Zpos p => bin_pos p ""
  | _ => "0"
  end.

Fixpoint zeros (n : nat) : string :=
  match n with
  | O => ""
  | S n' => String "0" (zeros n')
  end.

Definition zfill (width : nat) (s : string) : string :=
  zeros (width - String.length s) ++ s.

(** [format(ind, "0{n}b")]: the binary digits of [ind], padded with zeros
    on the left up to [n_qubits] characters (the sign counts in the width),
    never truncated. *)
Definition to_bitstring (n_qubits : nat) (ind : Z) : string :=
  if (ind <? 0)%Z
  then String "-" (zfill (n_qubits - 1) (bin (Z.abs ind)))
  else zfill n_qubits (bin ind).

(** [np.round]: to the nearest integer, ties to the even one. *)
Definition np_round (x : Q) : Z :=
  let f := Qfloor x in
  match Qcompare (x - inject_Z f)%Q (1 # 2)%Q with
  | Lt => f
  | Gt => (f + 1)%Z
  | Eq => if Z.even f then f else (f + 1)%Z
  end.

(** [get_correct_bitstring]: the product by [2**r1] is exact on floats. *)
Definition get_correct_bitstring (target_phase : Q) (r1 : nat) : string :=
  to_bitstring r1 (np_round (target_phase * pow2 (Z.of_nat r1))%Q).

(** *** Floating point sums

    [2 ** -(i + 1)] is a float, and so is the phase [np.sum] returns.  A
    non negative binary64 value is [mant * 2 ^ expo]; every operation rounds
    its exact result to 53 significant bits, to nearest, ties to the even
    significand.  Exponents are not bounded: the model is the binary64 one on
    the normal range, which the phases of bitstrings of up to 1022 bits stay
    in. *)

Record float := Float { mant : Z; expo : Z }.

Definition float_value (x : float) : Q :=
  (inject_Z (mant x) * Qpower 2 (expo x))%Q.

Definition round53 (m e : Z) : float :=
  if (m <? 2 ^ 53)%Z then Float m e
  else
    let s := (Z.log2 m - 52)%Z in
    let q := Z.shiftr m s in
    let r := Z.land m (Z.ones s) in
    let half := (2 ^ (s - 1))%Z in
    let q' := if (half <? r)%Z || ((r =? half)%Z && Z.odd q)
              then (q + 1)%Z else q in
    Float q' (e + s).

Definition fadd (a b : float) : float :=
  let e := Z.min (expo a) (expo b) in
  round53 (mant a * 2 ^ (expo a - e) + mant b * 2 ^ (expo b - e)) e.

(** [k * x] for a Python integer [k] and a float [x]. *)
Definition fmul_int (k : Z) (x : float) : float :=
  round53 (k * mant x) (expo x).

(** [2 ** -(i + 1)] *)
Definition pow2_neg (i : nat) : float := Float 1 (- (Z.of_nat i + 1))%Z.

(** [np.sum] of a list of floats, accumulated from the left.  numpy adds
    longer lists in blocks; a sum whose partial sums are all exact does not
    depend on the order. *)
Definition np_fsum (l : list float) : float := fold_left fadd l (Float 0 0).

(** [enumerate] *)
Fixpoint enumerate_from {A} (i : nat) (l : list A) : list (nat * A) :=
  match l with
  | [] => []
  | a :: l' => (i, a) :: enumerate_from (S i) l'
  end.

Definition enumerate {A} (l : list A) : list (nat * A) := enumerate_from 0 l.

(** [np.sum([(int(v)) * 2 ** -(i + 1) for i, v in enumerate(bitstring)])],
    the expression shared by [phase_from_counts] and
    [get_phase_from_qpe_circuit]. *)
Definition phase_of_bitstring (bitstring : string) : result float :=
  terms <- mapM (fun iv => k <- int_of_char (snd iv) ;;
                           Ok (fmul_int k (pow2_neg (fst iv))))
                (enumerate (chars bitstring)) ;;
  Ok (np_fsum terms).

(** A counts dictionary: bitstring keys in insertion order. *)
Definition counts := list (string * Z).

Section PhaseFromCounts.

(** The SDK's [Counts(...).most_frequent()] and [plot_histogram]. *)
Variable figure : Type.
Variable most_frequent : counts -> result string.
Variable plot_histogram : counts -> result figure.

Definition phase_from_counts (c : counts)
  : result (float * string * figure) :=
  bitstring <- most_frequent c ;;
  fig <- plot_histogram c ;;
  phase <- phase_of_bitstring bitstring ;;
  Ok (phase, bitstring, fig).

(** [get_phase_from_qpe_circuit] of the phase estimation notebook, from the
    counts the SDK samples on the first register. *)
Definition get_phase_from_qpe_circuit (sampled : result counts)
  : result float :=
  c <- sampled ;;
  bitstring <- most_frequent c ;;
  phase_of_bitstring bitstring.

End PhaseFromCounts.

(** Bitstrings of 0s and 1s. *)
Definition binary_char (c : ascii) : Prop := c = "0"%char \/ c = "1"%char.

Definition is_binary (s : string) : Prop := Forall binary_char (chars s).

(** The SDK's [most_frequent] as its documentation has it: the key of the
    largest count; an error of the SDK on an empty dictionary and on a
    tie. *)
Definition most_frequent_model (c : counts) : result string :=
  match c with
  | [] => Raise (Exn FromSdk "QiskitError"
                     "Can not return a most frequent count on an empty object")
  | kv :: c' =>
      let max_value := fold_left (fun m kv' => Z.max m (snd kv')) c' (snd kv) in
      match filter (fun kv' => (snd kv' =? max_value)%Z) c with
      | [x] => Ok (fst x)
      | _ => Raise (Exn FromSdk "QiskitError"
                        "Multiple values have the same maximum counts")
      end
  end.

(** Fifty-four ones: a register of 54 qubits measured in the all ones
    state. *)
Definition ones (n : nat) : string := string_of_list_ascii (repeat "1"%char n).

End Bitstrings.

(** ** Circuits: the QFT exercise and the QPE circuit *)

Module Circuits.

Import Bitstrings.

Section Builders.

(** Complex numbers as numpy has them: only the operations the cells use. *)
Variable C : Type.
Variable cadd : C -> C -> C.
Variable cconj : C -> C.
Variable cmul_i : C -> C.            (* [1j * z] *)
Variable cscale : Z -> C -> C.       (* [k * z] for an integer [k] *)

(** A square numpy array: its side and its entries by row and column. *)
Record matrix := Matrix { side : nat; entry : nat -> nat -> C }.

Definition madd (a b : matrix) : matrix :=
  Matrix (side a) (fun i j => cadd (entry a i j) (entry b i j)).
Definition mconj (a : matrix) : matrix :=
  Matrix (side a) (fun i j => cconj (entry a i j)).
Definition mtranspose (a : matrix) : matrix :=
  Matrix (side a) (fun i j => entry a j i).
Definition mmul_i (a : matrix) : matrix :=
  Matrix (side a) (fun i j => cmul_i (entry a i j)).
Definition mscale (k : Z) (a : matrix) : matrix :=
  Matrix (side a) (fun i j => cscale k (entry a i j)).

(** [np.random.rand(n, n) + 1j * np.random.rand(n, n)], [scipy]'s [expm],
    [np.trace] and the quotient of an array by a scalar. *)
Variable random_complex : nat -> matrix.
Variable expm : matrix -> matrix.
Variable trace : matrix -> C.
Variable mdiv : matrix -> C -> matrix.

(** The Hermitian matrix [random_unitary_iter] draws once. *)
Definition rham (r2 : nat) : matrix :=
  let rham := random_complex (2 ^ r2) in
  madd rham (mconj (mtranspose rham)).

(** One turn of the generator's loop: the statement [rut/np.trace(rut)]
    computes a quotient and drops it. *)
Definition unitary_power (irham : matrix) (m : nat) : matrix :=
  let rut := expm (mscale (2 ^ Z.of_nat m) irham) in
  let _ := mdiv rut (trace rut) in
  rut.

(** [random_unitary_iter]: the values the generator yields, in order. *)
Definition random_unitary_iter (r1 r2 : nat) : list matrix :=
  let irham := mmul_i (rham r2) in
  map (unitary_power irham) (seq 0 r1).

(** Gates of the SDK the cells append. *)
Inductive gate :=
| HGate
| SwapGate
| CPhaseGate (k : nat)                 (* the controlled-R_k gate *)
| UnitaryGate (rut : matrix)
| ControlledGate (num_ctrl_qubits : nat) (base : gate)
| QFT (num_qubits : nat) (inverse do_swaps : bool).

Record instruction := Instr { operation : gate; qargs : list nat }.

(** A circuit: its registers (name and size, in order) and the
    instructions appended so far. *)
Record QuantumCircuit :=
  Circuit { qregs : list (string * nat); data : list instruction }.

Definition num_qubits_of (circ : QuantumCircuit) : nat :=
  fold_right (fun r n => snd r + n) 0 (qregs circ).

(** The circuit indices of the qubits of register number [k]. *)
Definition register_qubits (circ : QuantumCircuit) (k : nat) : list nat :=
  seq (fold_right (fun r n => snd r + n) 0 (firstn k (qregs circ)))
      (snd (nth k (qregs circ) (EmptyString, 0))).

Definition append (circ : QuantumCircuit) (g : gate) (qs : list nat)
  : QuantumCircuit :=
  Circuit (qregs circ) (data circ ++ [Instr g qs]).

(** [circ.h(register)]: one Hadamard per qubit of the register. *)
Definition h (circ : QuantumCircuit) (qs : list nat) : QuantumCircuit :=
  fold_left (fun c q => append c HGate [q]) qs circ.

(** [controlled_U_gate]: [UnitaryGate(rut).control(1)] on
    [[ctrl, *targs]]. *)
Definition controlled_U_gate (circ : QuantumCircuit) (ctrl : nat)
           (targs : list nat) (rut : matrix) : QuantumCircuit :=
  let rut_gate := UnitaryGate rut in
  let crut_gate := ControlledGate 1 rut_gate in
  append circ crut_gate (ctrl :: targs).

(** [get_random_phase_and_psi]: numpy's eigen decomposition and a random
    index. *)
Variable phase_t psi_t : Type.
Variable get_random_phase_and_psi : matrix -> phase_t * psi_t.

(** The state of the loop of [qpe_circuit]: the circuit, the flag
    [get_phase_and_psi] and the names [phase], [psi] once bound. *)
Record qpe_loop := Loop {
  loop_circ : QuantumCircuit;
  loop_flag : bool;
  loop_phase_psi : option (phase_t * psi_t)
}.

Definition qpe_loop_body (second_register : list nat) (st : qpe_loop)
           (iu : nat * matrix) : qpe_loop :=
  let (ind, unitary) := iu in
  let st' :=
    if loop_flag st
    then Loop (loop_circ st) false (Some (get_random_phase_and_psi unitary))
    else st in
  Loop (controlled_U_gate (loop_circ st') ind second_register unitary)
       (loop_flag st') (loop_phase_psi st').

(** [qpe_circuit] of the phase estimation notebook.  With no turn of the
    loop the names [phase] and [psi] are unbound at the [return]. *)
Definition qpe_circuit (r1 r2 : nat)
  : result (QuantumCircuit * phase_t * psi_t) :=
  let circ := Circuit [("first"%string, r1); ("second"%string, r2)] [] in
  let first_register := register_qubits circ 0 in
  let second_register := register_qubits circ 1 in
  let circ := h circ first_register in
  let unitaries := random_unitary_iter r1 r2 in
  let st := fold_left (qpe_loop_body second_register) (enumerate unitaries)
                      (Loop circ true None) in
  let circ := append (loop_circ st)
                     (QFT (List.length first_register) true true)
                     first_register in
  match loop_phase_psi st with
  | Some (phase, psi) => Ok (circ, phase, psi)
  | None => Raise (Exn FromRuntime "UnboundLocalError"%string
                       "local variable 'phase' referenced before assignment"%string)
  end.

(** [build_qft_circuit] as the exercise notebook has it: the body between
    the construction and the [return] is the placeholder [...]. *)
Definition build_qft_circuit (n_qubits : nat) : QuantumCircuit :=
  let circuit := Circuit [("q"%string, n_qubits)] [] in
  let _ := tt in
  circuit.

(** *** The textbook QFT, after the specification

    For each qubit a Hadamard followed by a bounded sequence of
    controlled-phase gates on that qubit, then the swaps that reverse the
    order of the qubits. *)

Definition controlled_phase_on (j : nat) (i : instruction) : Prop :=
  exists k ctrl, i = Instr (CPhaseGate k) [ctrl; j].

Definition qubit_block (n j : nat) (blk : list instruction) : Prop :=
  exists cps, blk = Instr HGate [j] :: cps
              /\ Forall (controlled_phase_on j) cps
              /\ List.length cps <= n.

Definition reversal_swaps (n : nat) : list instruction :=
  map (fun i => Instr SwapGate [i; n - 1 - i]) (seq 0 (n / 2)).

Definition textbook_qft (n : nat) (circ : QuantumCircuit) : Prop :=
  exists blocks,
    List.length blocks = n
    /\ (forall j, j < n -> qubit_block n j (nth j blocks []))
    /\ data circ = List.concat blocks ++ reversal_swaps n.

(** A solution of the exercise in the notebook's words: qubit [j] gets a
    Hadamard, then the gates R_k controlled by the qubits after it, with
    [k] one more than the distance between control and target. *)
Definition qft_block (n j : nat) : list instruction :=
  Instr HGate [j]
  :: map (fun d => Instr (CPhaseGate (d + 2)) [j + 1 + d; j])
         (seq 0 (n - 1 - j)).

Definition qft_solution (n : nat) : QuantumCircuit :=
  Circuit [("q"%string, n)]
          (List.concat (map (qft_block n) (seq 0 n)) ++ reversal_swaps n).

End Builders.

End Circuits.

(** ** The hardware cells: running or loading a job *)

Module Hardware.

(** The values the cells compare and format: a [str], or the placeholder
    [...] the exercise leaves in place. *)
Inductive pyval :=
| PStr (s : string)
| PEllipsis.

(** [str(v)], as an f-string formats it. *)
Definition py_str (v : pyval) : string :=
  match v with
  | PStr s => s
  | PEllipsis => "Ellipsis"%string
  end.

(** [v == "..."] *)
Definition eq_str (v : pyval) (s : string) : bool :=
  match v with
  | PStr s' => String.eqb s' s
  | PEllipsis => false
  end.

(** What the provider's job interface offers.  [AwaitResult] is
    [job.result(timeout=...)], which blocks until the job is done. *)
Inductive request :=
| SubmitJob
| LoadJob (job_key : pyval)
| AwaitResult (timeout : option Z)
| CancelJob.

(** An estimator result: one row of expectation values and one row of
    standard deviations per observable. *)
Record estimator_result :=
  EstimatorResult { evs : list (list Q); stds : list (list Q) }.

(** An answer of the SDK: a value, or an exception of the SDK. *)
Inductive sdk_answer (A : Type) :=
| Answer (a : A)
| SdkError (class msg : string).
Arguments Answer {A} a.
Arguments SdkError {A} class msg.

Definition of_sdk {A} (a : sdk_answer A) : result A :=
  match a with
  | Answer v => Ok v
  | SdkError c m => Raise (Exn FromSdk c m)
  end.

(** Cells run against the log of the requests sent so far. *)
Definition io (A : Type) := list request -> result A * list request.

Definition ret {A} (a : A) : io A := fun t => (Ok a, t).

Definition raise {A} (e : exn) : io A := fun t => (Raise e, t).

Definition io_bind {A B} (m : io A) (k : A -> io B) : io B :=
  fun t => match m t with
           | (Ok a, t') => k a t'
           | (Raise e, t') => (Raise e, t')
           end.

(** One request to the service and its answer. *)
Definition call {A} (r : request) (a : sdk_answer A) : io A :=
  fun t => (of_sdk a, t ++ [r]).

Notation "x <~ m ;; k" := (io_bind m (fun x => k))
  (at level 61, m at next level, right associativity).

Definition count_submit (t : list request) : nat :=
  List.length (filter (fun r => match r with SubmitJob => true | _ => false end) t).

Definition count_load (t : list request) : nat :=
  List.length (filter (fun r => match r with LoadJob _ => true | _ => false end) t).

Definition count_await (t : list request) : nat :=
  List.length (filter (fun r => match r with AwaitResult _ => true | _ => false end) t).

Definition is_cancel (r : request) : bool :=
  match r with CancelJob => true | _ => false end.

Definition has_timeout (r : request) : bool :=
  match r with AwaitResult (Some _) => true | _ => false end.

Section Cells.

Variable job : Type.

(** The SDK: the local preparation of a run (the estimator, the pass
    manager and its [run], the layout of the observables),
    [estimator.run], [service.job] and [job.result]. *)
Variable isa_circuit : Type.
Variable pm_run : sdk_answer isa_circuit.
Variable estimator_run : isa_circuit -> list Q -> sdk_answer job.
Variable service_job : pyval -> sdk_answer job.
Variable job_result : job -> sdk_answer (list estimator_result).

(** [job.result()[0]] *)
Definition first_pub (rs : list estimator_result) : io estimator_result :=
  match rs with
  | r :: _ => ret r
  | [] => raise (Exn FromSdk "IndexError"%string "list index out of range"%string)
  end.

(** [backend_estimate_observables] on the real backend. *)
Definition backend_estimate_observables (param_sweep : list Q)
  : io estimator_result :=
  fun t =>
    match of_sdk pm_run with
    | Raise e => (Raise e, t)
    | Ok isa =>
        (j <~ call SubmitJob (estimator_run isa param_sweep) ;;
         rs <~ call (AwaitResult None) (job_result j) ;;
         first_pub rs) t
    end.

Definition sparse_param_sweep : list Q := [-2; -1; 0; 1; 2]%Q.

(** The [if which == "run": ... elif which == "load": ...] statement of
    the connection notebook.  [real_result] is unbound ([None]) when
    neither branch is taken. *)
Definition connect_dispatch (which : pyval) : io (option estimator_result) :=
  if eq_str which "run"%string then
    real_result <~ backend_estimate_observables sparse_param_sweep ;;
    ret (Some real_result)
  else if eq_str which "load"%string then
    let job_key := PStr "crx14dshazpg0084b9xg"%string in
    j <~ call (LoadJob job_key) (service_job job_key) ;;
    rs <~ call (AwaitResult None) (job_result j) ;;
    real_result <~ first_pub rs ;;
    ret (Some real_result)
  else ret None.

(** What [real_job] is bound to after the dispatch of the QPE notebook. *)
Inductive real_job_value :=
| Placeholder
| Job (j : job).

(** The [if ... elif ... else: raise ValueError(...)] statement of the QPE
    on hardware notebook; the ["run"] branch is the placeholder
    [real_job = ...]. *)
Definition qpe_dispatch (which job_key : pyval) : io real_job_value :=
  if eq_str which "run"%string then
    ret Placeholder
  else if eq_str which "load"%string then
    j <~ call (LoadJob job_key) (service_job job_key) ;;
    ret (Job j)
  else
    raise (Exn FromNotebook "ValueError"%string
               (String.append "Expected 'run' or 'load', got: "%string (py_str which))).

End Cells.

End Hardware.

(** ** The parameter sweeps: bitstring counts and estimator plots *)

Module Sweep.

Import Bitstrings Hardware.

Fixpoint foldM {A B} (f : A -> B -> result A) (l : list B) (a : A)
  : result A :=
  match l with
  | [] => Ok a
  | b :: l' => a' <- f a b ;; foldM f l' a'
  end.

(** Python dictionaries, keys in insertion order. *)
Section Dict.

Variables K V : Type.
Variable K_eq_dec : forall x y : K, {x = y} + {x <> y}.

Definition dict := list (K * V).

Definition keys (d : dict) : list K := map fst d.

Fixpoint dict_get (d : dict) (k : K) : option V :=
  match d with
  | [] => None
  | (k', v) :: d' => if K_eq_dec k' k then Some v else dict_get d' k
  end.

(** [d[k] = v]: a present key keeps its place. *)
Fixpoint dict_set (d : dict) (k : K) (v : V) : dict :=
  match d with
  | [] => [(k, v)]
  | (k', v') :: d' =>
      if K_eq_dec k' k then (k', v) :: d' else (k', v') :: dict_set d' k v
  end.

Definition in_keys (k : K) (d : dict) : bool :=
  if in_dec K_eq_dec k (keys d) then true else false.

End Dict.

Definition key_error {A} : result A :=
  Raise (Exn FromRuntime "KeyError"%string EmptyString).

(** [np.zeros((n))] *)
Definition np_zeros (n : nat) : list Q := repeat 0%Q n.

(** [arr[ind] = v] on a numpy array. *)
Definition array_set (arr : list Q) (ind : nat) (v : Q) : result (list Q) :=
  if ind <? List.length arr
  then Ok (firstn ind arr ++ v :: skipn (S ind) arr)
  else Raise (Exn FromSdk "IndexError"%string "index out of bounds"%string).

Section Rearrangement.

(** The points of the sweep, as dictionary keys. *)
Variable P : Type.
Variable P_eq_dec : forall x y : P, {x = y} + {x <> y}.

(** The SDK's statevector sampling of the circuit bound to [p]. *)
Variable sample_counts : P -> nat -> counts.

Definition sample_circuit (n_shots : nat) (parameters : P) : counts :=
  sample_counts parameters n_shots.

Definition bitstring_counts_t := dict string (list Q).

(** The body of the inner loop: create the array of a new bitstring, then
    write the count at the index of the sweep point. *)
Definition record_count (n_keys ind : nat) (bitstring_counts : bitstring_counts_t)
           (item : string * Z) : result bitstring_counts_t :=
  let (bitstring, cnt) := item in
  let bitstring_counts :=
    if in_keys string_dec bitstring bitstring_counts
    then bitstring_counts
    else dict_set string_dec bitstring_counts bitstring (np_zeros n_keys) in
  match dict_get string_dec bitstring_counts bitstring with
  | None => key_error
  | Some arr =>
      arr' <- array_set arr ind (inject_Z cnt) ;;
      Ok (dict_set string_dec bitstring_counts bitstring arr')
  end.

(** Every array stored in [bitstring_counts] has [n] entries. *)
Definition all_length (n : nat) (bc : bitstring_counts_t) : Prop :=
  Forall (fun kv => List.length (snd kv) = n) bc.

Definition fill_outcomes (n_shots : nat) (sweep : list P) : dict P counts :=
  fold_left (fun outcomes p =>
               dict_set P_eq_dec outcomes p (sample_circuit n_shots p))
            sweep [].

(** The rearrangement cell: [outcomes] by sweep point, then
    [bitstring_counts] by bitstring. *)
Definition rearrange (n_shots : nat) (sweep : list P)
  : result bitstring_counts_t :=
  let outcomes := fill_outcomes n_shots sweep in
  foldM (fun bitstring_counts (ik : nat * P) =>
           match dict_get P_eq_dec outcomes (snd ik) with
           | None => key_error
           | Some oc =>
               foldM (record_count (List.length (keys outcomes)) (fst ik))
                     oc bitstring_counts
           end)
        (enumerate (keys outcomes)) [].

(** *** Plotting an estimator result *)

(** An observable of the notebooks: a one element list holding a Pauli
    operator, which the label is taken from. *)
Definition observable := string.

Inductive plot_call :=
| Plot (x : list P) (y : list Q)
| Errorbar (x : list P) (y yerr : list Q) (label : string).

Fixpoint zip3 {A B D} (a : list A) (b : list B) (d : list D)
  : list (A * B * D) :=
  match a, b, d with
  | x :: a', y :: b', z :: d' => (x, y, z) :: zip3 a' b' d'
  | _, _, _ => []
  end.

(** [plot_estimator_result] of the connection notebook: the calls it makes
    on the axes. *)
Definition plot_estimator_result (result : estimator_result)
           (param_sweep : list P) (observables : list observable)
           (overlay_param_sweep : option (list P))
           (overlay_result : option estimator_result) : list plot_call :=
  (match overlay_result, overlay_param_sweep with
   | Some ov, Some ops => map (fun ov_evs => Plot ops ov_evs) (evs ov)
   | _, _ => []
   end)
  ++ map (fun row : list Q * list Q * observable =>
            let '(e, s, obs) := row in Errorbar param_sweep e s obs)
         (zip3 (evs result) (stds result) observables).

(** The rows zipped for an errorbar have the length of the abscissa. *)
Definition rows_match (c : plot_call) : Prop :=
  match c with
  | Plot _ _ => True
  | Errorbar x y yerr _ =>
      List.length y = List.length x /\ List.length yerr = List.length x
  end.

(** [sv_estimate_observables]: the SDK's statevector estimator on one
    pub, and the first result. *)
Variable circuit_t : Type.
Variable statevector_estimator :
  circuit_t -> list observable -> list P -> sdk_answer (list estimator_result).

Definition sv_estimate_observables (circuit : circuit_t)
           (observables : list observable) (param_sweep : list P)
  : result estimator_result :=
  rs <- of_sdk (statevector_estimator circuit observables param_sweep) ;;
  match rs with
  | r :: _ => Ok r
  | [] => Raise (Exn FromSdk "IndexError"%string "list index out of range"%string)
  end.

(** The first plotting cell: estimate on the sweep, plot against it. *)
Definition estimate_and_plot (circuit : circuit_t)
           (observables : list observable) (param_sweep : list P)
  : result (list plot_call) :=
  r <- sv_estimate_observables circuit observables param_sweep ;;
  Ok (plot_estimator_result r param_sweep observables None None).

End Rearrangement.

Section HardwareCell.

Variable job isa_circuit : Type.
Variable pm_run : sdk_answer isa_circuit.
Variable estimator_run : isa_circuit -> list Q -> sdk_answer job.
Variable service_job : pyval -> sdk_answer job.
Variable job_result : job -> sdk_answer (list estimator_result).

(** The hardware cell up to its first plot: the dispatch on [which], then
    [plot_estimator_result] of [real_result] against
    [sparse_param_sweep], with the ideal result as overlay. *)
Definition hardware_cell (which : pyval) (observables : list observable)
           (fine_param_sweep : list Q) (ideal_result : estimator_result)
  : io (list (plot_call Q)) :=
  real_result <~ connect_dispatch pm_run estimator_run service_job
                                  job_result which ;;
  match real_result with
  | None => raise (Exn FromRuntime "NameError"%string
                       "name 'real_result' is not defined"%string)
  | Some r =>
      ret (plot_estimator_result r sparse_param_sweep observables
                                 (Some fine_param_sweep) (Some ideal_result))
  end.

End HardwareCell.

End Sweep.

(** ** The test vectors of the QFT check cell

    numpy's floats are read as real numbers here: the cell is about norms. *)

Module QFTCheck.

Local Open Scope R_scope.

(** A complex number: real and imaginary part. *)
Definition complex := (R * R)%type.

(** [np.exp(1j * theta)] *)
Definition cexp_i (theta : R) : complex := (cos theta, sin theta).

Definition cadd (a b : complex) : complex := (fst a + fst b, snd a + snd b).

Definition cabs2 (z : complex) : R := fst z * fst z + snd z * snd z.

Definition sum_abs2 (v : list complex) : R :=
  fold_right (fun z acc => cabs2 z + acc) 0 v.

(** [np.linalg.norm] of a vector. *)
Definition norm (v : list complex) : R := sqrt (sum_abs2 v).

(** [v /= r] *)
Definition idiv (v : list complex) (r : R) : list complex :=
  map (fun z => (fst z / r, snd z / r)) v.

(** [np.linspace(start, stop, num)] *)
Definition linspace (start stop : R) (num : nat) : list R :=
  map (fun k => start + INR k * ((stop - start) / INR (num - 1))) (seq 0 num).

(** The simple vector: [np.exp(1j*100*np.pi*np.linspace(0,2,2**n_qubits))]. *)
Definition simple_vector (n_qubits : nat) : list complex :=
  map (fun x => cexp_i (100 * PI * x)) (linspace 0 2 (2 ^ n_qubits)).

(** The harmonics vector: a random phase per entry plus three harmonics. *)
Definition harmonics_vector (n_qubits : nat) (rand : list R) : list complex :=
  let xs := linspace 0 2 (2 ^ n_qubits) in
  let v0 := map (fun r => cexp_i (2 * PI * r)) rand in
  let add w f := map (fun p => cadd (fst p) (cexp_i (PI * f * snd p)))
                     (combine w xs) in
  add (add (add v0 3) 10) 20.

(** [initial_state /= np.linalg.norm(initial_state)]: what the cell hands to
    [check_results]. *)
Definition checked_state (initial_state : list complex) : list complex :=
  idiv initial_state (norm initial_state).

Definition n_qubits : nat := 7.

Definition simple_state : list complex := checked_state (simple_vector n_qubits).

Definition harmonics_state (rand : list R) : list complex :=
  checked_state (harmonics_vector n_qubits rand).

End QFTCheck.

(** ** Packaging the results of the QPE notebook *)

Module Packaging.

Import Bitstrings.

Local Open Scope string_scope.

(** [s.replace(" ", "_")] *)
Fixpoint replace_spaces (s : string) : string :=
  match s with
  | EmptyString => EmptyString
  | String c s' =>
      String (if Ascii.eqb c " " then "_"%char else c) (replace_spaces s')
  end.

(** Values of the JSON record. *)
#[warnings="-register-all"]
Inductive json :=
| JStr (s : string)
| JInt (z : Z)
| JFloat (x : float)
| JObj (fields : list (string * json)).

(** [np_dict_to_dict]: [{k: int(v) for k, v in d.items()}] *)
Definition np_dict_to_dict (d : counts) : json :=
  JObj (map (fun kv => (fst kv, JInt (snd kv))) d).

Section Cell.

Variable figure : Type.
Variable bytes : Type.

(** [fig.savefig(buf, **fig_opts)] and [buf.getvalue()];
    [json.dumps(jobj, indent=4, ensure_ascii=False).encode()]. *)
Variable savefig : figure -> list (string * string) -> bytes.
Variable json_dumps_encode : json -> nat -> bool -> bytes.

(** An open archive: its entries, in the order they are written. *)
Definition zipfile := list (string * bytes).

Definition writestr (zf : zipfile) (fn : string) (data : bytes) : zipfile :=
  (zf ++ [(fn, data)])%list.

Definition fig_opts : list (string * string) :=
  [("format", "pdf"); ("bbox_inches", "tight"); ("pad_inches", "0.01")].

Definition fig_to_zip (fig : figure) (fn : string) (zf : zipfile) : zipfile :=
  let buf := savefig fig fig_opts in
  writestr zf fn buf.

(** The names the cell reads from the notebook. *)
Record globals := Globals {
  timestamp : string;
  real_job_repr : string;
  hamiltonian_str : string;
  your_name : string;
  your_idm : string;
  fake_backend_name : string;
  real_backend_name : string;
  sv_counts : counts;
  fake_counts : counts;
  real_counts : counts;
  target_phase : float;
  correct_bitstring : string;
  sv_computed_phase : float;
  sv_output_bitstring : string;
  fake_computed_phase : float;
  fake_output_bitstring : string;
  real_computed_phase : float;
  real_output_bitstring : string;
  sv_fig : figure;
  fake_fig : figure;
  real_fig : figure;
  circ_fig : figure
}.

Definition jobj (g : globals) : list (string * json) :=
  [ ("__timestamp", JStr (timestamp g));
    ("__jobj", JStr (real_job_repr g));
    ("__ham", JStr (hamiltonian_str g));
    ("__name", JStr (your_name g));
    ("__idm", JStr (your_idm g));
    ("__fake_backend", JStr (fake_backend_name g));
    ("__real_backend", JStr (real_backend_name g));
    ("__sv_counts", np_dict_to_dict (sv_counts g));
    ("__fake_counts", np_dict_to_dict (fake_counts g));
    ("__real_counts", np_dict_to_dict (real_counts g));
    ("__target_phase", JFloat (target_phase g));
    ("__correct_bitstring", JStr (correct_bitstring g));
    ("__sv_computed_phase", JFloat (sv_computed_phase g));
    ("__sv_output_bitstring", JStr (sv_output_bitstring g));
    ("__fake_computed_phase", JFloat (fake_computed_phase g));
    ("__fake_output_bitstring", JStr (fake_output_bitstring g));
    ("__real_computed_phase", JFloat (real_computed_phase g));
    ("__real_output_bitstring", JStr (real_output_bitstring g)) ].

(** The path of the archive, an f-string over the name and the id (the
    nested quotes are those of Python 3.12). *)
Definition zf_fpath (g : globals) : string :=
  "./" ++ replace_spaces (your_name g) ++ "_" ++ your_idm g ++ ".zip".

(** The cell: the files it writes, each with its entries.  The archive is
    opened once, in mode ["w"], and closed when the [with] block ends. *)
Definition packaging_cell (g : globals) : list (string * zipfile) :=
  let zf := [] in
  let zf := fig_to_zip (sv_fig g) "stevector_results.pdf" zf in
  let zf := fig_to_zip (fake_fig g) "fake_results.pdf" zf in
  let zf := fig_to_zip (real_fig g) "real_results.pdf" zf in
  let zf := fig_to_zip (circ_fig g) "circuit.pdf" zf in
  let data := json_dumps_encode (JObj (jobj g)) 4 false in
  let zf := writestr zf "specs.json" data in
  [(zf_fpath g, zf)].

End Cell.

End Packaging.

(** ** Reading bitstrings as binary numbers *)

Module Binary.

Import Bitstrings.

(** The value of a character as a bit: 1 for "1", 0 otherwise. *)
Definition bit_of (c : ascii) : Z := if Ascii.eqb c "1" then 1%Z else 0%Z.

(** A list of characters read as a binary number, most significant bit
    first, after the digits [m] already read. *)
Definition bits_value (l : list ascii) (m : Z) : Z :=
  fold_left (fun m c => (2 * m + bit_of c)%Z) l m.

(** The binary digits of a positive number, least significant first. *)
Fixpoint lsb_bits (p : positive) : list ascii :=
  match p with
  | xH => ["1"%char]
  | xO p' => "0"%char :: lsb_bits p'
  | xI p' => "1"%char :: lsb_bits p'
  end.

(** Decimal digits, the characters [int] accepts. *)
Definition is_digit (c : ascii) : bool :=
  (48 <=? nat_of_ascii c)%nat && (nat_of_ascii c <=? 57)%nat.

(** The number of characters "1" of a string. *)
Definition count_ones (s : string) : nat :=
  List.length (filter (fun c => Ascii.eqb c "1") (chars s)).

Definition count_zeros (s : string) : nat :=
  List.length (filter (fun c => Ascii.eqb c "0") (chars s)).

End Binary.

(** ** QPE on hardware: preparing the state, the controlled evolutions *)

Module HardwareCircuit.

Import Bitstrings.

Section Builders.

(** The Hamiltonian handed to the SDK's evolution gate. *)
Variable hamiltonian : Type.

Inductive gate :=
| XGate
| PauliEvolutionGate (ham : hamiltonian) (time : Q)
| ControlledGate (num_ctrl_qubits : nat) (base : gate).

Record instruction := Instr { operation : gate; qargs : list nat }.

Record QuantumCircuit :=
  Circuit { qregs : list (string * nat); data : list instruction }.

(** The circuit index of the first qubit of register number [k]. *)
Definition register_offset (circ : QuantumCircuit) (k : nat) : nat :=
  fold_right (fun r n => snd r + n) 0 (firstn k (qregs circ)).

(** [circ.qregs[k][ind]]: the list of registers and the register both
    check their index. *)
Definition qreg_qubit (circ : QuantumCircuit) (k ind : nat) : result nat :=
  match nth_error (qregs circ) k with
  | None => Raise (Exn FromRuntime "IndexError"%string
                       "list index out of range"%string)
  | Some r =>
      if ind <? snd r
      then Ok (register_offset circ k + ind)
      else Raise (Exn FromSdk "IndexError"%string
                      "register index out of range"%string)
  end.

Definition append (circ : QuantumCircuit) (g : gate) (qs : list nat)
  : QuantumCircuit :=
  Circuit (qregs circ) (data circ ++ [Instr g qs]).

(** [circ.x(qubits)]: one X gate per qubit of the list. *)
Definition x (circ : QuantumCircuit) (qs : list nat) : QuantumCircuit :=
  fold_left (fun c q => append c XGate [q]) qs circ.

(** [bitstring[::-1][ind] == "1"], for [ind] below the length. *)
Definition reversed_is_one (bitstring : string) (ind : nat) : bool :=
  match nth_error (rev (chars bitstring)) ind with
  | Some c => Ascii.eqb c "1"
  | None => false
  end.

(** [bitstring_preparation_circuit]: the qubits of the second register at
    the ranks where the reversed bitstring has a "1" (the qubit is looked up
    only for those ranks), then an X gate on each of them if there is
    any. *)
Definition bitstring_preparation_circuit (circ : QuantumCircuit)
           (bitstring : string) : result QuantumCircuit :=
  x_gate_list <- mapM (qreg_qubit circ 1)
                      (filter (reversed_is_one bitstring)
                              (seq 0 (String.length bitstring))) ;;
  Ok (match x_gate_list with
      | [] => circ
      | _ :: _ => x circ x_gate_list
      end).

(** [time_evolution_unitaries]: the gates the generator yields; the product
    of a float by a power of two is exact. *)
Definition time_evolution_unitaries (r1 : nat) (ham : hamiltonian) (time : Q)
  : list gate :=
  map (fun m => PauliEvolutionGate ham (- time * pow2 (Z.of_nat m))%Q)
      (seq 0 r1).

(** [controlled_U_gate] of the hardware notebook. *)
Definition controlled_U_gate (circ : QuantumCircuit) (ctrl : nat)
           (targs : list nat) (pauli_evgate : gate) : QuantumCircuit :=
  let pauli_cevgate := ControlledGate 1 pauli_evgate in
  append circ pauli_cevgate (ctrl :: targs).

End Builders.

Section Targets.

(** numpy's [eigh] (eigenvalues, and the eigenvector of each column) and
    [argmax]. *)
Variable matrix_t vector_t : Type.
Variable eigh : matrix_t -> list Q * (nat -> vector_t).
Variable argmax : vector_t -> nat.

(** [l[idx]] and [a[:, idx]] on numpy arrays: a negative index counts from
    the end. *)
Definition np_index (len : nat) (idx : Z) : result nat :=
  if (0 <=? idx)%Z && (idx <? Z.of_nat len)%Z then Ok (Z.to_nat idx)
  else if (idx <? 0)%Z && (- Z.of_nat len <=? idx)%Z
       then Ok (Z.to_nat (Z.of_nat len + idx))
       else Raise (Exn FromSdk "IndexError"%string "index out of bounds"%string).

(** [int(np.log2(n))]: the logarithm of a power of two is exact; it is
    minus infinity at 0, which [int] refuses. *)
Definition int_log2 (n : nat) : result nat :=
  match n with
  | O => Raise (Exn FromRuntime "OverflowError"%string
                    "cannot convert float infinity to integer"%string)
  | _ => Ok (Nat.log2 n)
  end.

(** [get_targets] *)
Definition get_targets (hamiltonian : matrix_t) (idx : Z)
  : result (Q * vector_t * string) :=
  let (eigvals, eigvecs) := eigh hamiltonian in
  let idx := if (idx =? -1)%Z then (Z.of_nat (List.length eigvals) - 1)%Z
             else idx in
  i <- np_index (List.length eigvals) idx ;;
  let target_energy := nth i eigvals 0%Q in
  n_qubits <- int_log2 (List.length eigvals) ;;
  let target_state := eigvecs i in
  let target_state_bitstring :=
    to_bitstring n_qubits (Z.of_nat (argmax target_state)) in
  Ok (target_energy, target_state, target_state_bitstring).

End Targets.

End HardwareCircuit.

(** ** The transverse field Ising Hamiltonian of the rotation gates notebook *)

Module Ising.

(** [k * s] on a string: no copy for [k <= 0]. *)
Fixpoint str_repeat_nat (k : nat) (s : string) : string :=
  match k with
  | O => EmptyString
  | S k' => (s ++ str_repeat_nat k' s)%string
  end.

Definition str_repeat (k : Z) (s : string) : string :=
  str_repeat_nat (Z.to_nat k) s.

(** [range(n)] *)
Definition py_range (n : Z) : list Z := map Z.of_nat (seq 0 (Z.to_nat n)).

(** A term of a [SparsePauliOp]: the coefficient and the Pauli label. *)
Definition term := (Z * string)%type.

(** What [sum] and [+] build: the integer 0 for an empty list, else the
    operator whose terms are those of the summands, in order. *)
Inductive pauli_sum :=
| PyZero
| Op (terms : list term).

Definition py_sum (l : list term) : pauli_sum :=
  match l with
  | [] => PyZero
  | _ :: _ => Op l
  end.

Definition py_add (a b : pauli_sum) : result pauli_sum :=
  match a, b with
  | PyZero, PyZero => Ok PyZero
  | Op ta, Op tb => Ok (Op (ta ++ tb))
  | PyZero, Op tb => Ok (Op tb)
  | Op ta, PyZero => Ok (Op ta)
  end.

Definition hamiltonian_J_terms (num_qubits J : Z) : list term :=
  map (fun s => ((- J)%Z,
                 (str_repeat s "I" ++ "ZZ"
                  ++ str_repeat (num_qubits - 2 - s) "I")%string))
      (py_range (num_qubits - 1)).

Definition hamiltonian_g_terms (num_qubits g : Z) : list term :=
  map (fun s => (g,
                 (str_repeat s "I" ++ "X"
                  ++ str_repeat (num_qubits - 1 - s) "I")%string))
      (py_range (num_qubits - 1)).

(** [hamiltonian = hamiltonian_J + hamiltonian_g] *)
Definition hamiltonian (num_qubits J g : Z) : result pauli_sum :=
  py_add (py_sum (hamiltonian_J_terms num_qubits J))
         (py_sum (hamiltonian_g_terms num_qubits g)).

End Ising.

(** ** Plots of the rotation gates and QFT notebooks *)

Module Plots.

Import Hardware Sweep.

Section Basic.

Variable P : Type.

(** [plot_estimator_result] of the rotation gates notebook: the errorbars
    first, then the overlay when both of its coordinates are given. *)
Definition plot_estimator_result (param_sweep : list P)
           (result : estimator_result) (observables : list observable)
           (overlay_x : option (list P)) (overlay_y : option (list Q))
  : list (plot_call P) :=
  map (fun row : list Q * list Q * observable =>
         let '(e, s, obs) := row in
         Errorbar param_sweep e s (String.append "Observable " obs))
      (zip3 (evs result) (stds result) observables)
  ++ match overlay_x, overlay_y with
     | Some ox, Some oy => [Plot ox oy]
     | _, _ => []
     end.

End Basic.

Local Open Scope R_scope.

(** [np.max] of an array of reals: numpy refuses an empty one. *)
Definition np_max (l : list R) : result R :=
  match l with
  | [] => Raise (Exn FromSdk "ValueError"%string
                     "zero-size array to reduction operation maximum"%string)
  | a :: l' => Ok (fold_left Rmax l' a)
  end.

(** [np.abs(a) / np.max(np.abs(a))], the series [check_results] plots. *)
Definition normalized_abs (a : list QFTCheck.complex) : result (list R) :=
  let abs := map (fun z => sqrt (QFTCheck.cabs2 z)) a in
  m <- np_max abs ;;
  Ok (map (fun v => v / m) abs).

End Plots.

(** ** What the rearranged counts hold *)

Module SweepSpec.

Import Bitstrings Sweep.

(** The count of a bitstring in a counts dictionary, 0 when it was not
    measured. *)
Definition lookup_count (oc : counts) (b : string) : Q :=
  match dict_get string_dec oc b with
  | Some c => inject_Z c
  | None => 0%Q
  end.

(** [bitstring_counts] has exactly the keys [M], and the array of [b] has
    [n] entries, the one of rank [j] being [f b j]. *)
Definition holds (n : nat) (M : string -> Prop) (f : string -> nat -> Q)
           (bc : dict string (list Q)) : Prop :=
  forall b, match dict_get string_dec bc b with
            | None => ~ M b
            | Some arr =>
                M b /\ List.length arr = n
                /\ forall j, j < n -> nth j arr 0%Q = f b j
            end.

Section Expected.

Variable P : Type.
Variable sample : P -> counts.
Variable sweep : list P.

(** The bitstring was measured at one of the first [i] sweep points. *)
Definition measured_before (i : nat) (b : string) : Prop :=
  exists j p, j < i /\ nth_error sweep j = Some p /\ In b (keys (sample p)).

(** The entry of rank [j] once the first [i] sweep points are written. *)
Definition expected_entry (i : nat) (b : string) (j : nat) : Q :=
  if j <? i
  then match nth_error sweep j with
       | Some p => lookup_count (sample p) b
       | None => 0%Q
       end
  else 0%Q.

End Expected.

End SweepSpec.

(** ** What the SDK requires of an appended instruction *)

Module CircuitShape.

Import Circuits.

Section Shape.

Variable C : Type.

(** The number of qubits a gate acts on; a unitary gate has one qubit per
    factor two of the side of its matrix. *)
Fixpoint gate_num_qubits (g : gate C) : nat :=
  match g with
  | HGate _ => 1
  | SwapGate _ => 2
  | CPhaseGate _ _ => 2
  | UnitaryGate rut => Nat.log2 (side rut)
  | ControlledGate num_ctrl_qubits base => num_ctrl_qubits + gate_num_qubits base
  | QFT _ num_qubits _ _ => num_qubits
  end.

(** An instruction the circuit accepts: distinct qubits of the circuit, as
    many as the gate has. *)
Definition well_formed (num_qubits : nat) (i : instruction C) : Prop :=
  NoDup (qargs i)
  /\ Forall (fun q => q < num_qubits) (qargs i)
  /\ List.length (qargs i) = gate_num_qubits (operation i).

End Shape.

End CircuitShape.

Module BitstringsFacts.

Import Bitstrings.

Lemma chars_length (s : string) : List.length (chars s) = String.length s.
Proof.
  induction s as [|c s IH]; simpl; [reflexivity | now rewrite IH].
Qed.

Lemma int_of_char_binary (c : ascii) :
  binary_char c -> exists b, int_of_char c = Ok b /\ (b = 0 \/ b = 1)%Z.
Proof.
  intros [-> | ->]; [exists 0%Z | exists 1%Z]; split; auto.
Qed.

Lemma round53_small (m e : Z) : (m < 2 ^ 53)%Z -> round53 m e = Float m e.
Proof.
  intros H. unfold round53.
  destruct (Z.ltb_spec m (2 ^ 53)); [reflexivity | lia].
Qed.

Lemma term_binary (b : Z) (i : nat) :
  (b = 0 \/ b = 1)%Z ->
  fmul_int b (pow2_neg i) = Float b (- (Z.of_nat i + 1)).
Proof.
  intros Hb. unfold fmul_int, pow2_neg; simpl mant; simpl expo.
  rewrite Z.mul_1_r. apply round53_small.
  assert (0 < 2 ^ 53)%Z by (apply Z.pow_pos_nonneg; lia).
  assert (1 < 2 ^ 53)%Z by (apply Z.pow_gt_1; lia).
  lia.
Qed.

(** Adding the bit of rank [i] to a sum of [i] bits is exact as long as the
    sum fits the significand. *)
Lemma fadd_next_bit (m b : Z) (i : nat) :
  (0 <= m < 2 ^ Z.of_nat i)%Z -> (b = 0 \/ b = 1)%Z -> i < 53 ->
  fadd (Float m (- Z.of_nat i)) (Float b (- (Z.of_nat i + 1)))
  = Float (2 * m + b) (- (Z.of_nat i + 1)).
Proof.
  intros Hm Hb Hi. unfold fadd; simpl mant; simpl expo.
  replace (Z.min (- Z.of_nat i) (- (Z.of_nat i + 1)))
    with (- (Z.of_nat i + 1))%Z by lia.
  replace (- Z.of_nat i - - (Z.of_nat i + 1))%Z with 1%Z by lia.
  replace (- (Z.of_nat i + 1) - - (Z.of_nat i + 1))%Z with 0%Z by lia.
  change (2 ^ 1)%Z with 2%Z. change (2 ^ 0)%Z with 1%Z.
  replace (m * 2 + b * 1)%Z with (2 * m + b)%Z by lia.
  apply round53_small.
  assert (2 ^ (Z.of_nat i + 1) <= 2 ^ 53)%Z
    by (apply Z.pow_le_mono_r; lia).
  rewrite Z.pow_add_r in H by lia. change (2 ^ 1)%Z with 2%Z in H. lia.
Qed.

(** The sum of the bits of a binary string of at most 53 characters is
    exact: its significand is the string read as a binary number. *)
Lemma phase_terms_exact (l : list ascii) :
  forall (i : nat) (m : Z),
    Forall binary_char l ->
    i + List.length l <= 53 ->
    (0 <= m < 2 ^ Z.of_nat i)%Z ->
    exists terms m',
      mapM (fun iv : nat * ascii =>
              k <- int_of_char (snd iv) ;; Ok (fmul_int k (pow2_neg (fst iv))))
           (enumerate_from i l) = Ok terms
      /\ fold_left fadd terms (Float m (- Z.of_nat i))
         = Float m' (- Z.of_nat (i + List.length l))
      /\ (0 <= m' < 2 ^ Z.of_nat (i + List.length l))%Z.
Proof.
  induction l as [|c l IH]; intros i m Hbin Hlen Hm.
  - exists [], m. simpl. rewrite Nat.add_0_r. auto.
  - inversion Hbin as [|? ? Hc Hl]; subst.
    destruct (int_of_char_binary Hc) as (b & Hb & Hb01).
    simpl in Hlen.
    destruct (IH (S i) (2 * m + b)%Z Hl) as (terms & m' & Ht & Hf & Hm').
    + lia.
    + rewrite Nat2Z.inj_succ, Z.pow_succ_r by lia. lia.
    + exists (fmul_int b (pow2_neg i) :: terms), m'.
      simpl enumerate_from. simpl mapM. simpl snd. simpl fst.
      rewrite Hb. simpl bind. rewrite Ht. simpl bind.
      split; [reflexivity|].
      simpl fold_left. rewrite term_binary by assumption.
      rewrite fadd_next_bit by (auto; lia).
      replace (- (Z.of_nat i + 1))%Z with (- Z.of_nat (S i))%Z by lia.
      simpl List.length.
      replace (i + S (List.length l)) with (S i + List.length l) by lia.
      auto.
Qed.

Lemma phase_of_bitstring_exact (s : string) :
  is_binary s -> String.length s <= 53 ->
  exists k,
    phase_of_bitstring s = Ok (Float k (- Z.of_nat (String.length s)))
    /\ (0 <= k < 2 ^ Z.of_nat (String.length s))%Z.
Proof.
  intros Hb Hl. unfold phase_of_bitstring, enumerate, np_fsum.
  rewrite <- chars_length in *.
  destruct (@phase_terms_exact (chars s) 0 0%Z Hb) as (terms & k & Ht & Hf & Hk).
  - simpl. lia.
  - simpl. lia.
  - exists k. rewrite Ht. simpl bind. simpl in Hf. rewrite Hf.
    simpl in Hk. auto.
Qed.

Lemma Qpower_2_neg (n : nat) :
  (Qpower 2 (- Z.of_nat n) == 1 / inject_Z (2 ^ Z.of_nat n))%Q.
Proof.
  rewrite Qpower_opp.
  rewrite (Zpower_Qpower 2 (Z.of_nat n)) by lia.
  change (inject_Z 2) with 2%Q.
  unfold Qdiv. now rewrite Qmult_1_l.
Qed.

Lemma float_value_dyadic (k : Z) (n : nat) :
  (float_value (Float k (- Z.of_nat n)) == inject_Z k / inject_Z (2 ^ Z.of_nat n))%Q.
Proof.
  unfold float_value; simpl mant; simpl expo.
  rewrite Qpower_2_neg. unfold Qdiv. now rewrite Qmult_1_l.
Qed.

Lemma dyadic_unit_interval (k : Z) (n : nat) :
  (0 <= k < 2 ^ Z.of_nat n)%Z ->
  (0 <= inject_Z k / inject_Z (2 ^ Z.of_nat n))%Q
  /\ (inject_Z k / inject_Z (2 ^ Z.of_nat n) < 1)%Q.
Proof.
  intros [H0 H1].
  assert (Hp : (0 < 2 ^ Z.of_nat n)%Z) by lia.
  assert (HpQ : (0 < inject_Z (2 ^ Z.of_nat n))%Q)
    by (rewrite <- (Zlt_Qlt 0); exact Hp).
  split.
  - apply Qle_shift_div_l; [exact HpQ|].
    rewrite Qmult_0_l. change 0%Q with (inject_Z 0). now rewrite <- Zle_Qle.
  - apply Qlt_shift_div_r; [exact HpQ|].
    rewrite Qmult_1_l. now rewrite <- Zlt_Qlt.
Qed.

Lemma most_frequent_model_key (c : counts) (b : string) :
  most_frequent_model c = Ok b -> In b (map fst c).
Proof.
  unfold most_frequent_model. destruct c as [|kv c']; [discriminate|].
  set (mx := fold_left _ c' (snd kv)).
  destruct (filter (fun kv' => (snd kv' =? mx)%Z) (kv :: c')) as [|x [|y l]] eqn:E;
    try discriminate.
  intros [= <-]. apply in_map.
  assert (Hx : In x (filter (fun kv' => (snd kv' =? mx)%Z) (kv :: c')))
    by (rewrite E; left; reflexivity).
  apply filter_In in Hx. tauto.
Qed.

Lemma ones_binary (n : nat) : is_binary (ones n).
Proof.
  unfold is_binary, ones, chars.
  rewrite list_ascii_of_string_of_list_ascii.
  apply Forall_forall. intros c Hc.
  apply repeat_spec in Hc. right. exact Hc.
Qed.

Section PhaseFacts.

Variable figure : Type.
Variable most_frequent : counts -> result string.
Variable plot_histogram : counts -> result figure.


End PhaseFacts.



(** *** Lengths of the bitstrings [to_bitstring] formats *)

Lemma string_app_length (a b : string) :
  String.length (a ++ b) = String.length a + String.length b.
Proof.
  induction a as [|c a IH]; simpl; [reflexivity | now rewrite IH].
Qed.

Lemma zeros_length (n : nat) : String.length (zeros n) = n.
Proof.
  induction n as [|n IH]; simpl; [reflexivity | now rewrite IH].
Qed.

Lemma zfill_length (width : nat) (s : string) :
  String.length (zfill width s) = Nat.max width (String.length s).
Proof.
  unfold zfill. rewrite string_app_length, zeros_length. lia.
Qed.

Lemma bin_pos_length (p : positive) :
  forall acc, String.length (bin_pos p acc) = Pos.size_nat p + String.length acc.
Proof.
  induction p as [p IH|p IH|]; intros acc; simpl;
    try rewrite IH; simpl; lia.
Qed.

Lemma size_nat_le (p : positive) :
  forall n, (Z.pos p < 2 ^ Z.of_nat n)%Z -> Pos.size_nat p <= n.
Proof.
  induction p as [p IH|p IH|]; intros [|n] H;
    try (change (2 ^ Z.of_nat 0)%Z with 1%Z in H; lia);
    try (simpl; lia);
    rewrite Nat2Z.inj_succ, Z.pow_succ_r in H by lia;
    simpl; apply le_n_S, IH; lia.
Qed.

Lemma size_nat_pow2 (n : nat) :
  forall p, Z.pos p = (2 ^ Z.of_nat n)%Z -> Pos.size_nat p = S n.
Proof.
  induction n as [|n IH]; intros p H.
  - simpl in H. now injection H as ->.
  - rewrite Nat2Z.inj_succ, Z.pow_succ_r in H by lia.
    assert (0 < 2 ^ Z.of_nat n)%Z by (apply Z.pow_pos_nonneg; lia).
    destruct p as [p|p|]; try lia.
    simpl. f_equal. apply IH. lia.
Qed.

(** An index below [2^n] is formatted on exactly [n] characters. *)
Lemma to_bitstring_length (n : nat) (i : Z) :
  1 <= n -> (0 <= i < 2 ^ Z.of_nat n)%Z ->
  String.length (to_bitstring n i) = n.
Proof.
  intros Hn [H0 H1]. unfold to_bitstring.
  destruct (Z.ltb_spec i 0); [lia|].
  rewrite zfill_length. destruct i as [|p|p]; simpl; try lia.
  rewrite bin_pos_length. simpl.
  pose proof (@size_nat_le p n H1). lia.
Qed.

(** The index [2^n] takes one more character. *)
Lemma to_bitstring_length_pow2 (n : nat) :
  String.length (to_bitstring n (2 ^ Z.of_nat n)) = S n.
Proof.
  assert (Hp : (0 < 2 ^ Z.of_nat n)%Z) by (apply Z.pow_pos_nonneg; lia).
  unfold to_bitstring.
  destruct (Z.ltb_spec (2 ^ Z.of_nat n) 0); [lia|].
  rewrite zfill_length.
  destruct (2 ^ Z.of_nat n)%Z as [|p|p] eqn:E; try lia.
  simpl. rewrite bin_pos_length. simpl.
  rewrite (@size_nat_pow2 n p) by (symmetry; exact E). lia.
Qed.

Lemma np_round_floor (x : Q) :
  (Qfloor x <= np_round x <= Qfloor x + 1)%Z.
Proof.
  unfold np_round.
  destruct (Qcompare (x - inject_Z (Qfloor x)) (1 # 2));
    [destruct (Z.even (Qfloor x))| |]; lia.
Qed.

Lemma pow2_nat (n : nat) : (pow2 (Z.of_nat n) == inject_Z (2 ^ Z.of_nat n))%Q.
Proof.
  unfold pow2. rewrite (Zpower_Qpower 2 (Z.of_nat n)) by lia. reflexivity.
Qed.

(** For a phase in [0, 1) the rounded index lies between 0 and [2^r1],
    bounds included, and the bitstring has [r1] characters unless the index
    is [2^r1], where it has [r1 + 1]. *)
Lemma get_correct_bitstring_length (target_phase : Q) (r1 : nat) :
  1 <= r1 -> (0 <= target_phase)%Q -> (target_phase < 1)%Q ->
  let k := np_round (target_phase * pow2 (Z.of_nat r1))%Q in
  (0 <= k <= 2 ^ Z.of_nat r1)%Z
  /\ String.length (get_correct_bitstring target_phase r1)
     = if (k <? 2 ^ Z.of_nat r1)%Z then r1 else S r1.
Proof.
  intros Hr1 H0 H1 k.
  assert (Hp : (0 < 2 ^ Z.of_nat r1)%Z) by (apply Z.pow_pos_nonneg; lia).
  assert (HpQ : (0 < inject_Z (2 ^ Z.of_nat r1))%Q)
    by (rewrite <- (Zlt_Qlt 0); exact Hp).
  set (x := (target_phase * pow2 (Z.of_nat r1))%Q) in *.
  assert (Hx0 : (0 <= x)%Q).
  { unfold x. rewrite pow2_nat. apply Qmult_le_0_compat; [exact H0|].
    now apply Qlt_le_weak. }
  assert (Hx1 : (x < inject_Z (2 ^ Z.of_nat r1))%Q).
  { unfold x. rewrite pow2_nat.
    rewrite <- (Qmult_1_l (inject_Z (2 ^ Z.of_nat r1))) at 2.
    apply Qmult_lt_compat_r; assumption. }
  assert (Hf0 : (0 <= Qfloor x)%Z).
  { change 0%Z with (Qfloor 0). now apply Qfloor_resp_le. }
  assert (Hf1 : (Qfloor x < 2 ^ Z.of_nat r1)%Z).
  { rewrite Zlt_Qlt. eapply Qle_lt_trans; [apply Qfloor_le | exact Hx1]. }
  pose proof (np_round_floor x) as Hk. fold k in Hk.
  split; [lia|].
  unfold get_correct_bitstring. fold x. fold k.
  destruct (Z.ltb_spec k (2 ^ Z.of_nat r1)) as [Hlt|Hge].
  - apply to_bitstring_length; [exact Hr1 | lia].
  - replace k with (2 ^ Z.of_nat r1)%Z by lia.
    apply to_bitstring_length_pow2.
Qed.

(** Whatever the register, a phase just below one is formatted on one
    character too many: [1 - 2^-(r1+2)] times [2^r1] is [2^r1 - 1/4]. *)
Lemma get_correct_bitstring_near_one (r1 : nat) :
  1 <= r1 ->
  let target_phase := (1 - 1 / inject_Z (2 ^ Z.of_nat (r1 + 2)))%Q in
  (0 <= target_phase)%Q /\ (target_phase < 1)%Q
  /\ String.length (get_correct_bitstring target_phase r1) = S r1.
Proof.
  intros Hr1 tp.
  assert (Hp : (0 < 2 ^ Z.of_nat r1)%Z) by (apply Z.pow_pos_nonneg; lia).
  assert (Hp2 : (2 ^ Z.of_nat (r1 + 2) = 4 * 2 ^ Z.of_nat r1)%Z).
  { rewrite Nat2Z.inj_add, Z.pow_add_r by lia. change (2 ^ Z.of_nat 2)%Z with 4%Z. lia. }
  assert (HpQ : (0 < inject_Z (2 ^ Z.of_nat r1))%Q)
    by (rewrite <- (Zlt_Qlt 0); exact Hp).
  assert (Hne : ~ (inject_Z (2 ^ Z.of_nat r1) == 0)%Q)
    by (intros E; rewrite E in HpQ; discriminate).
  assert (Htp : (tp == 1 - 1 / (4 * inject_Z (2 ^ Z.of_nat r1)))%Q).
  { unfold tp. rewrite Hp2, inject_Z_mult. reflexivity. }
  assert (Hinv : (0 < 1 / (4 * inject_Z (2 ^ Z.of_nat r1)))%Q).
  { apply Qlt_shift_div_l; [|rewrite Qmult_0_l; reflexivity].
    rewrite <- (Qmult_0_r 4). apply Qmult_lt_l; [reflexivity | exact HpQ]. }
  assert (Hinv1 : (1 / (4 * inject_Z (2 ^ Z.of_nat r1)) <= 1 # 4)%Q).
  { apply Qle_shift_div_r.
    - rewrite <- (Qmult_0_r 4). apply Qmult_lt_l; [reflexivity | exact HpQ].
    - setoid_replace ((1 # 4) * (4 * inject_Z (2 ^ Z.of_nat r1)))%Q
        with (inject_Z (2 ^ Z.of_nat r1)) by ring.
      change 1%Q with (inject_Z 1). rewrite <- Zle_Qle. lia. }
  assert (H0 : (0 <= tp)%Q).
  { rewrite Htp.
    apply (Qplus_le_l _ _ (1 / (4 * inject_Z (2 ^ Z.of_nat r1)))).
    ring_simplify.
    eapply Qle_trans; [exact Hinv1 | discriminate]. }
  assert (H1 : (tp < 1)%Q).
  { rewrite Htp.
    apply (Qplus_lt_l _ _ (1 / (4 * inject_Z (2 ^ Z.of_nat r1)))).
    ring_simplify.
    rewrite <- (Qplus_0_r 1) at 1. rewrite (Qplus_comm _ 1).
    apply Qplus_lt_r. exact Hinv. }
  split; [exact H0|]. split; [exact H1|].
  destruct (@get_correct_bitstring_length tp r1 Hr1 H0 H1) as [Hk Hlen].
  cbv zeta in Hk, Hlen. rewrite Hlen.
  set (x := (tp * pow2 (Z.of_nat r1))%Q) in *.
  assert (Hx : (x == inject_Z (2 ^ Z.of_nat r1 - 1) + (3 # 4))%Q).
  { unfold x. rewrite pow2_nat, Htp.
    unfold Zminus. rewrite inject_Z_plus.
    change (inject_Z (- (1))) with (- (1))%Q.
    revert Hne. generalize (inject_Z (2 ^ Z.of_nat r1)). intros P HP.
    field. exact HP. }
  assert (Hfloor : Qfloor x = (2 ^ Z.of_nat r1 - 1)%Z).
  { rewrite Hx.
    assert (Hle : (inject_Z (2 ^ Z.of_nat r1 - 1)
                   <= inject_Z (2 ^ Z.of_nat r1 - 1) + (3 # 4))%Q).
    { rewrite <- (Qplus_0_r (inject_Z (2 ^ Z.of_nat r1 - 1))) at 1.
      apply Qplus_le_r. discriminate. }
    assert (Hlt : (inject_Z (2 ^ Z.of_nat r1 - 1) + (3 # 4)
                   < inject_Z (2 ^ Z.of_nat r1 - 1 + 1))%Q).
    { rewrite inject_Z_plus. apply Qplus_lt_r. reflexivity. }
    apply Qfloor_resp_le in Hle. rewrite Qfloor_Z in Hle.
    pose proof (Qlt_le_weak _ _ Hlt) as Hlt'.
    apply Qfloor_resp_le in Hlt'. rewrite Qfloor_Z in Hlt'.
    set (y := (inject_Z (2 ^ Z.of_nat r1 - 1) + (3 # 4))%Q) in *.
    assert (Hy : (Qfloor y < 2 ^ Z.of_nat r1 - 1 + 1)%Z).
    { rewrite Zlt_Qlt. eapply Qle_lt_trans; [apply Qfloor_le | exact Hlt]. }
    lia. }
  assert (Hround : np_round x = (2 ^ Z.of_nat r1)%Z).
  { unfold np_round. rewrite Hfloor.
    assert (Hd : (x - inject_Z (2 ^ Z.of_nat r1 - 1) == 3 # 4)%Q)
      by (rewrite Hx; ring).
    rewrite Hd. simpl. lia. }
  rewrite Hround. rewrite Z.ltb_irrefl. reflexivity.
Qed.

(** No index of a register of one to six qubits survives the round trip. *)
Lemma from_bitstring_never_round_trips :
  forallb (fun n =>
             forallb (fun i =>
                        match from_bitstring n (BStr (to_bitstring n (Z.of_nat i))) with
                        | Ok v => negb (Qeq_bool v (inject_Z (Z.of_nat i)))
                        | Raise _ => false
                        end)
                     (seq 0 (2 ^ n)))
          (seq 1 6) = true.
Proof. vm_compute. reflexivity. Qed.

(** C8: the round trip breaks at [n_qubits = 3], index 5: the bitstring is
    "101" and [from_bitstring] answers 8. *)
Theorem from_bitstring_to_bitstring_3_5 :
  to_bitstring 3 5 = "101"%string
  /\ from_bitstring 3 (BStr (to_bitstring 3 5)) = Ok (8 # 1)%Q
  /\ ~ (8 # 1 == inject_Z 5)%Q.
Proof.
  split; [reflexivity|]. split; [vm_compute; reflexivity|].
  vm_compute. discriminate.
Qed.

(** C9: at [target_phase = 0.875] and [r1 = 1] the product 1.75 rounds to
    [2 = 2^r1], and the bitstring has two characters. *)
Theorem get_correct_bitstring_too_long :
  (0 <= 7 # 8)%Q /\ (7 # 8 < 1)%Q
  /\ np_round ((7 # 8) * pow2 1)%Q = 2%Z
  /\ get_correct_bitstring (7 # 8) 1 = "10"%string
  /\ String.length (get_correct_bitstring (7 # 8) 1) = 2.
Proof.
  repeat split; vm_compute; intuition discriminate.
Qed.

End BitstringsFacts.

Module CircuitsFacts.

Import Bitstrings Circuits.

Lemma enumerate_from_map {A B} (f : A -> B) (l : list A) (i : nat) :
  enumerate_from i (map f l) = map (fun p => (fst p, f (snd p))) (enumerate_from i l).
Proof.
  revert i. induction l as [|a l IH]; intros i; simpl; [reflexivity|].
  now rewrite IH.
Qed.

Lemma enumerate_from_seq (i n : nat) :
  enumerate_from i (seq i n) = map (fun m => (m, m)) (seq i n).
Proof.
  revert i. induction n as [|n IH]; intros i; simpl; [reflexivity|].
  now rewrite IH.
Qed.

Section Facts.

Variable C : Type.
Variable cadd : C -> C -> C.
Variable cconj : C -> C.
Variable cmul_i : C -> C.
Variable cscale : Z -> C -> C.
Variable random_complex : nat -> matrix C.
Variable expm : matrix C -> matrix C.
Variable trace : matrix C -> C.
Variable mdiv : matrix C -> C -> matrix C.
Variable phase_t psi_t : Type.
Variable get_random_phase_and_psi : matrix C -> phase_t * psi_t.

Local Abbreviation rham := (rham cadd cconj random_complex).
Local Abbreviation irham r2 := (mmul_i cmul_i (rham r2)).
Local Abbreviation U m r2 := (expm (mscale cscale (2 ^ Z.of_nat m) (irham r2))).
Local Abbreviation qpe_circuit :=
  (qpe_circuit cadd cconj cmul_i cscale random_complex expm trace mdiv
               get_random_phase_and_psi).
Local Abbreviation random_unitary_iter :=
  (random_unitary_iter cadd cconj cmul_i cscale random_complex expm trace mdiv).

Lemma data_append (circ : QuantumCircuit C) g qs :
  data (append circ g qs) = data circ ++ [Instr g qs].
Proof. reflexivity. Qed.

Lemma h_spec (qs : list nat) :
  forall circ : QuantumCircuit C,
    h circ qs = Circuit (qregs circ)
                        (data circ ++ map (fun q => Instr (HGate C) [q]) qs).
Proof.
  induction qs as [|q qs IH]; intros circ; simpl.
  - rewrite app_nil_r. now destruct circ.
  - rewrite IH. simpl. now rewrite <- app_assoc.
Qed.

(** The loop of [qpe_circuit]: one controlled gate per value yielded, and
    [phase], [psi] bound at the first turn only. *)
Lemma qpe_loop_spec (second : list nat) (us : list (nat * matrix C)) :
  forall st : qpe_loop C phase_t psi_t,
    let st' := fold_left (qpe_loop_body get_random_phase_and_psi second) us st in
    loop_circ st'
    = Circuit (qregs (loop_circ st))
              (data (loop_circ st)
               ++ map (fun iu => Instr (ControlledGate 1 (UnitaryGate (snd iu)))
                                       (fst iu :: second)) us)
    /\ loop_phase_psi st'
       = match us with
         | [] => loop_phase_psi st
         | iu :: _ => if loop_flag st
                      then Some (get_random_phase_and_psi (snd iu))
                      else loop_phase_psi st
         end
    /\ loop_flag st' = match us with [] => loop_flag st | _ => false end.
Proof.
  induction us as [|[ind u] us IH]; intros st; cbv zeta; cbn [fold_left].
  - cbn [map]. rewrite app_nil_r. now destruct (loop_circ st).
  - destruct (IH (qpe_loop_body get_random_phase_and_psi second st (ind, u)))
      as (Hc & Hp & Hf).
    rewrite Hc, Hp, Hf. clear IH Hc Hp Hf.
    unfold qpe_loop_body.
    destruct (loop_flag st) eqn:E; cbn;
      rewrite <- app_assoc; cbn;
      (split; [reflexivity|]); split; destruct us; cbn; rewrite ?E;
      reflexivity.
Qed.

Lemma unitary_power_eq (r2 m : nat) :
  unitary_power cscale expm trace mdiv (irham r2) m = U m r2.
Proof. reflexivity. Qed.

Lemma random_unitary_iter_eq (r1 r2 : nat) :
  random_unitary_iter r1 r2 = map (fun m => U m r2) (seq 0 r1).
Proof. reflexivity. Qed.

(** The matrix drawn by [random_unitary_iter] is Hermitian. *)
Lemma rham_hermitian (r2 : nat) :
  (forall a b, cadd a b = cadd b a) ->
  (forall a b, cconj (cadd a b) = cadd (cconj a) (cconj b)) ->
  (forall a, cconj (cconj a) = a) ->
  forall i j, entry (mconj cconj (mtranspose (rham r2))) i j = entry (rham r2) i j.
Proof.
  intros Hcomm Hadd Hinv i j. simpl.
  rewrite Hadd, Hinv. apply Hcomm.
Qed.


(** With no qubit in the first register, the loop does not run and the
    [return] meets the unbound name [phase]. *)
Lemma qpe_circuit_no_qubit (r2 : nat) :
  raised_by FromRuntime (qpe_circuit 0 r2).
Proof. reflexivity. Qed.

(** The reference solution meets the textbook description. *)
Lemma qft_solution_textbook (n : nat) : textbook_qft n (qft_solution C n).
Proof.
  exists (map (qft_block C n) (seq 0 n)). split; [|split].
  - now rewrite length_map, length_seq.
  - intros j Hj.
    rewrite (nth_indep _ [] (qft_block C n 0))
      by (now rewrite length_map, length_seq).
    rewrite map_nth, seq_nth by assumption. simpl.
    exists (map (fun d => Instr (CPhaseGate C (d + 2)) [j + 1 + d; j])
                (seq 0 (n - 1 - j))).
    split; [reflexivity|]. split.
    + apply Forall_forall. intros i Hi. apply in_map_iff in Hi.
      destruct Hi as (d & <- & _). now exists (d + 2), (j + 1 + d).
    + rewrite length_map, length_seq. lia.
  - reflexivity.
Qed.

(** C2, amended: for every [n_qubits >= 1], [build_qft_circuit n_qubits]
    as the exercise notebook has it returns a circuit on [n_qubits] qubits
    with no instruction at all; it is not the textbook QFT circuit, which
    the notebook leaves to the student. *)
Theorem build_qft_circuit_placeholder (n_qubits : nat) :
  1 <= n_qubits ->
  num_qubits_of (build_qft_circuit C n_qubits) = n_qubits
  /\ data (build_qft_circuit C n_qubits) = []
  /\ ~ textbook_qft n_qubits (build_qft_circuit C n_qubits).
Proof.
  intros Hn. split; [apply Nat.add_0_r|]. split; [reflexivity|].
  intros (blocks & Hlen & Hblk & Hdata).
  destruct blocks as [|b blocks]; [simpl in Hlen; subst n_qubits; inversion Hn|].
  destruct (Hblk 0 Hn) as (cps & Hb & _). simpl in Hb. subst b.
  simpl in Hdata. discriminate.
Qed.

End Facts.


(** C2 as stated fails at one qubit: the circuit returned holds no
    Hadamard, so it is not the textbook circuit. *)
Lemma build_qft_circuit_not_textbook :
  data (build_qft_circuit unit 1) = []
  /\ ~ In (Instr (HGate unit) [0]) (data (build_qft_circuit unit 1))
  /\ ~ textbook_qft 1 (build_qft_circuit unit 1).
Proof.
  split; [reflexivity|]. split; [intros []|].
  intros (blocks & Hlen & Hblk & Hdata).
  destruct blocks as [|b blocks]; [discriminate|].
  destruct (Hblk 0 (le_n 1)) as (cps & Hb & _). simpl in Hb. subst b.
  discriminate.
Qed.

Lemma build_qft_circuit_placeholder_witness :
  num_qubits_of (build_qft_circuit unit 7) = 7
  /\ data (build_qft_circuit unit 7) = []
  /\ ~ textbook_qft 7 (build_qft_circuit unit 7).
Proof.
  apply (@build_qft_circuit_placeholder unit 7). lia.
Defined.

End CircuitsFacts.

Module HardwareFacts.

Import Hardware.

Section Facts.

Variable job isa_circuit : Type.
Variable pm_run : sdk_answer isa_circuit.
Variable estimator_run : isa_circuit -> list Q -> sdk_answer job.
Variable service_job : pyval -> sdk_answer job.
Variable job_result : job -> sdk_answer (list estimator_result).

Local Abbreviation connect_dispatch :=
  (connect_dispatch pm_run estimator_run service_job job_result).
Local Abbreviation qpe_dispatch := (qpe_dispatch service_job).

Lemma of_sdk_origin {A} (a : sdk_answer A) (o : origin) :
  raised_by o (of_sdk a) -> o = FromSdk.
Proof. destruct a; simpl; [tauto | auto]. Qed.

(** The requests of the connection notebook's dispatch, by case. *)
Lemma connect_dispatch_trace (which : pyval) :
  let r := connect_dispatch which [] in
  (eq_str which "run" = true ->
     (exists c m, pm_run = SdkError c m /\ snd r = [])
     \/ (exists isa, pm_run = Answer isa
                     /\ (snd r = [SubmitJob]
                         \/ snd r = [SubmitJob; AwaitResult None])))
  /\ (eq_str which "run" = false -> eq_str which "load" = true ->
        snd r = [LoadJob (PStr "crx14dshazpg0084b9xg")]
        \/ snd r = [LoadJob (PStr "crx14dshazpg0084b9xg"); AwaitResult None])
  /\ (eq_str which "run" = false -> eq_str which "load" = false ->
        r = (Ok None, [])).
Proof.
  cbv zeta. unfold Hardware.connect_dispatch.
  destruct (eq_str which "run"); [|destruct (eq_str which "load")];
    (split; [intros H; try discriminate
            | split; intros H1 H2; try discriminate]).
  - unfold io_bind, backend_estimate_observables.
    destruct pm_run as [isa|c m]; simpl.
    + right. exists isa. split; [reflexivity|].
      unfold io_bind, call. simpl.
      destruct (estimator_run isa sparse_param_sweep) as [j|]; simpl; auto.
      destruct (job_result j) as [[|x rs]|]; simpl; auto.
    + left. exists c, m. auto.
  - unfold io_bind, call. simpl.
    destruct (service_job _) as [j|]; simpl; auto.
    destruct (job_result j) as [[|x rs]|]; simpl; auto.
  - reflexivity.
Qed.

Lemma connect_dispatch_origin (which : pyval) (o : origin) :
  raised_by o (fst (connect_dispatch which [])) -> o = FromSdk.
Proof.
  unfold Hardware.connect_dispatch.
  destruct (eq_str which "run"); [|destruct (eq_str which "load")].
  - unfold io_bind, backend_estimate_observables.
    destruct pm_run as [isa|c m]; simpl; [|auto].
    unfold io_bind, call. simpl.
    destruct (estimator_run isa sparse_param_sweep) as [j|]; simpl; [|auto].
    destruct (job_result j) as [[|r rs]|]; simpl; auto; tauto.
  - unfold io_bind, call. simpl.
    destruct (service_job _) as [j|]; simpl; [|auto].
    destruct (job_result j) as [[|r rs]|]; simpl; auto; tauto.
  - simpl. tauto.
Qed.



End Facts.



End HardwareFacts.

Module SweepFacts.

Import Bitstrings Hardware Sweep.

Section DictFacts.

Variables K V : Type.
Variable K_eq_dec : forall x y : K, {x = y} + {x <> y}.

Local Abbreviation dict_set := (@dict_set K V K_eq_dec).
Local Abbreviation dict_get := (@dict_get K V K_eq_dec).

Lemma keys_dict_set (d : dict K V) (k : K) (v : V) :
  keys (dict_set d k v) = if in_dec K_eq_dec k (keys d) then keys d
                          else keys d ++ [k].
Proof.
  induction d as [|[k' v'] d IH]; simpl; [reflexivity|].
  destruct (K_eq_dec k' k) as [->|Hne]; simpl.
  - destruct (K_eq_dec k k); [reflexivity | congruence].
  - rewrite IH. destruct (K_eq_dec k' k); [congruence|].
    destruct (in_dec K_eq_dec k (keys d)); reflexivity.
Qed.

Lemma dict_get_in_keys (d : dict K V) (k : K) :
  In k (keys d) -> exists v, dict_get d k = Some v /\ In (k, v) d.
Proof.
  induction d as [|[k' v'] d IH]; simpl; [tauto|].
  intros Hin. destruct (K_eq_dec k' k) as [->|Hne].
  - exists v'. auto.
  - destruct Hin as [Heq|Hin]; [congruence|].
    destruct (IH Hin) as (v & Hv & Hinv). exists v. auto.
Qed.

Lemma dict_get_set_same (d : dict K V) (k : K) (v : V) :
  dict_get (dict_set d k v) k = Some v.
Proof.
  induction d as [|[k' v'] d IH]; simpl.
  - destruct (K_eq_dec k k); [reflexivity | congruence].
  - destruct (K_eq_dec k' k) as [->|Hne]; simpl.
    + destruct (K_eq_dec k k); [reflexivity | congruence].
    + destruct (K_eq_dec k' k); [congruence | exact IH].
Qed.

Lemma Forall_dict_set (Q : V -> Prop) (d : dict K V) (k : K) (v : V) :
  Forall (fun kv => Q (snd kv)) d -> Q v ->
  Forall (fun kv => Q (snd kv)) (dict_set d k v).
Proof.
  intros Hd Hv. induction d as [|[k' v'] d IH]; simpl.
  - constructor; [exact Hv | constructor].
  - inversion Hd; subst.
    destruct (K_eq_dec k' k); constructor; auto.
Qed.

End DictFacts.

Lemma enumerate_from_bound {A} (l : list A) (i : nat) :
  forall p, In p (enumerate_from i l) ->
            i <= fst p < i + List.length l /\ In (snd p) l.
Proof.
  revert i. induction l as [|a l IH]; intros i p; simpl; [tauto|].
  intros [<- | Hin]; simpl.
  - split; [lia | auto].
  - destruct (IH _ _ Hin) as [Hb Hi]. split; [lia | auto].
Qed.

Lemma foldM_invariant {A B} (f : A -> B -> result A) (Inv : A -> Prop)
      (l : list B) :
  (forall a b, In b l -> Inv a -> exists a', f a b = Ok a' /\ Inv a') ->
  forall a, Inv a -> exists a', foldM f l a = Ok a' /\ Inv a'.
Proof.
  induction l as [|b l IH]; intros Hf a Ha; simpl.
  - exists a. auto.
  - destruct (Hf a b (or_introl eq_refl) Ha) as (a1 & -> & Ha1). simpl.
    apply IH; [|exact Ha1].
    intros a0 b0 Hb0. apply Hf. now right.
Qed.

Lemma array_set_length (arr : list Q) (ind : nat) (v : Q) :
  ind < List.length arr ->
  exists arr', array_set arr ind v = Ok arr'
               /\ List.length arr' = List.length arr.
Proof.
  intros Hi. unfold array_set.
  destruct (Nat.ltb_spec ind (List.length arr)); [|lia].
  eexists. split; [reflexivity|].
  rewrite length_app. cbn [List.length].
  rewrite length_firstn, length_skipn. lia.
Qed.

Section RearrangementFacts.

Variable P : Type.
Variable P_eq_dec : forall x y : P, {x = y} + {x <> y}.
Variable sample_counts : P -> nat -> counts.

Local Abbreviation fill_outcomes := (fill_outcomes P_eq_dec sample_counts).
Local Abbreviation rearrange := (rearrange P_eq_dec sample_counts).

Local Abbreviation all_length := (@all_length).

Lemma record_count_length (n ind : nat) (bc : bitstring_counts_t)
      (item : string * Z) :
  ind < n -> all_length n bc ->
  exists bc', record_count n ind bc item = Ok bc' /\ all_length n bc'.
Proof.
  intros Hind Hbc. destruct item as [b cnt]. unfold record_count.
  set (bc1 := if in_keys string_dec b bc then bc
              else dict_set string_dec bc b (np_zeros n)).
  assert (H1 : all_length n bc1).
  { unfold bc1. destruct (in_keys string_dec b bc); [exact Hbc|].
    apply (Forall_dict_set string_dec (fun v => List.length v = n));
      [exact Hbc|].
    unfold np_zeros. apply repeat_length. }
  assert (Hget : exists arr, dict_get string_dec bc1 b = Some arr
                             /\ List.length arr = n).
  { unfold bc1, in_keys.
    destruct (in_dec string_dec b (keys bc)) as [Hin|Hnin].
    - destruct (dict_get_in_keys string_dec bc b Hin) as (arr & Hg & Hi).
      exists arr. split; [exact Hg|].
      unfold all_length in Hbc. rewrite Forall_forall in Hbc.
      apply (Hbc _ Hi).
    - exists (np_zeros n). split; [apply dict_get_set_same|].
      apply repeat_length. }
  destruct Hget as (arr & -> & Harr).
  destruct (@array_set_length arr ind (inject_Z cnt)) as (arr' & -> & Hl);
    [lia|].
  simpl. eexists. split; [reflexivity|].
  apply (Forall_dict_set string_dec (fun v => List.length v = n));
    [exact H1 | lia].
Qed.

Lemma keys_fill_from (n_shots : nat) (sweep : list P) :
  forall d : dict P counts,
    NoDup (keys d) ->
    let d' := fold_left (fun outcomes p =>
                           dict_set P_eq_dec outcomes p
                                    (sample_circuit sample_counts n_shots p))
                        sweep d in
    NoDup (keys d')
    /\ (forall x, In x (keys d') <-> In x (keys d) \/ In x sweep).
Proof.
  induction sweep as [|p sweep IH]; intros d Hd; cbv zeta; simpl.
  - split; [exact Hd | tauto].
  - set (d1 := dict_set P_eq_dec d p (sample_circuit sample_counts n_shots p)).
    assert (Hk : keys d1 = if in_dec P_eq_dec p (keys d) then keys d
                           else keys d ++ [p])
      by apply keys_dict_set.
    assert (Hd1 : NoDup (keys d1)).
    { rewrite Hk. destruct (in_dec P_eq_dec p (keys d)) as [|Hn]; [exact Hd|].
      apply NoDup_app; [exact Hd | repeat constructor; simpl; tauto |].
      intros x Hx [<- | []]. contradiction. }
    destruct (IH d1 Hd1) as [Hnd Hin]. cbv zeta in Hnd, Hin.
    split; [exact Hnd|].
    intros x. rewrite Hin, Hk.
    destruct (in_dec P_eq_dec p (keys d)) as [Hp|Hp].
    + split; [intros [H|H]; auto | intros [H|[<-|H]]; auto].
    + rewrite in_app_iff. simpl. tauto.
Qed.

Lemma keys_fill_outcomes (n_shots : nat) (sweep : list P) :
  NoDup (keys (fill_outcomes n_shots sweep))
  /\ (forall x, In x (keys (fill_outcomes n_shots sweep)) <-> In x sweep).
Proof.
  destruct (@keys_fill_from n_shots sweep [] (NoDup_nil _)) as [Hnd Hin].
  split; [exact Hnd|]. intros x. cbv zeta in Hin.
  unfold Sweep.fill_outcomes. rewrite Hin. simpl. tauto.
Qed.

(** The number of keys of [outcomes] is the number of distinct points. *)
Lemma length_keys_fill_outcomes (n_shots : nat) (sweep : list P) :
  List.length (keys (fill_outcomes n_shots sweep))
  = List.length (nodup P_eq_dec sweep).
Proof.
  destruct (keys_fill_outcomes n_shots sweep) as [Hnd Hin].
  apply Nat.le_antisymm; apply NoDup_incl_length.
  - exact Hnd.
  - intros x Hx. apply nodup_In. now apply Hin.
  - apply NoDup_nodup.
  - intros x Hx. apply Hin. now apply nodup_In in Hx.
Qed.

(** The rearrangement loop returns, and every array it stores has as many
    entries as [outcomes] has keys. *)
Lemma rearrange_lengths (n_shots : nat) (sweep : list P) :
  exists bc, rearrange n_shots sweep = Ok bc
             /\ all_length (List.length (nodup P_eq_dec sweep)) bc.
Proof.
  unfold Sweep.rearrange.
  rewrite <- (length_keys_fill_outcomes n_shots sweep).
  set (outcomes := fill_outcomes n_shots sweep).
  apply foldM_invariant; [|constructor].
  intros bc [ind k] Hin Hbc. simpl fst. simpl snd.
  apply enumerate_from_bound in Hin. simpl in Hin.
  destruct Hin as [Hind Hk].
  destruct (dict_get_in_keys P_eq_dec outcomes k Hk) as (oc & -> & _).
  apply foldM_invariant; [|exact Hbc].
  intros bc0 item _ Hbc0. apply record_count_length; [lia | exact Hbc0].
Qed.

End RearrangementFacts.

Section PlotFacts.

Variable P : Type.
Variable P_eq_dec : forall x y : P, {x = y} + {x <> y}.
Variable sample_counts : P -> nat -> counts.
Variable circuit_t : Type.
Variable statevector_estimator :
  circuit_t -> list observable -> list P -> sdk_answer (list estimator_result).

Lemma zip3_in {A B D} (a : list A) (b : list B) (d : list D) x y z :
  In (x, y, z) (zip3 a b d) -> In x a /\ In y b /\ In z d.
Proof.
  revert b d. induction a as [|x0 a IH]; intros [|y0 b] [|z0 d]; simpl;
    try tauto.
  intros [[= -> -> ->] | Hin]; [auto|].
  destruct (IH _ _ Hin) as (? & ? & ?). auto.
Qed.

(** Rows of the length of the sweep are plotted against it row by row. *)
Lemma plot_rows_match (r : estimator_result) (sweep : list P)
      (observables : list observable) ops ov :
  Forall (fun row => List.length row = List.length sweep) (evs r) ->
  Forall (fun row => List.length row = List.length sweep) (stds r) ->
  Forall (@rows_match P) (plot_estimator_result r sweep observables ops ov).
Proof.
  intros He Hs. unfold plot_estimator_result. apply Forall_app. split.
  - destruct ov as [ov|]; [|constructor].
    destruct ops as [ops|]; [|constructor].
    apply Forall_forall. intros c Hc. apply in_map_iff in Hc.
    destruct Hc as (row & <- & _). exact I.
  - apply Forall_forall. intros c Hc. apply in_map_iff in Hc.
    destruct Hc as ([[e s] obs] & <- & Hin).
    apply zip3_in in Hin. destruct Hin as (Hine & Hins & _).
    rewrite Forall_forall in He, Hs. simpl. auto.
Qed.


End PlotFacts.



End SweepFacts.

Module QFTCheckFacts.

Import Circuits QFTCheck.

Local Open Scope R_scope.

Lemma cabs2_cexp_i (theta : R) : cabs2 (cexp_i theta) = 1.
Proof.
  unfold cabs2, cexp_i; simpl.
  pose proof (sin2_cos2 theta) as H. unfold Rsqr in H. lra.
Qed.

Lemma sum_abs2_nonneg (v : list complex) : 0 <= sum_abs2 v.
Proof.
  induction v as [|z v IH]; simpl; [lra|].
  unfold cabs2. nra.
Qed.

Lemma sum_abs2_phases (thetas : list R) :
  sum_abs2 (map cexp_i thetas) = INR (List.length thetas).
Proof.
  induction thetas as [|t thetas IH]; [reflexivity|].
  cbn [map sum_abs2 fold_right List.length].
  fold (sum_abs2 (map cexp_i thetas)).
  rewrite IH, cabs2_cexp_i, S_INR. lra.
Qed.

Lemma sum_abs2_idiv (v : list complex) (r : R) :
  r <> 0 -> sum_abs2 (idiv v r) = sum_abs2 v / (r * r).
Proof.
  intros Hr. induction v as [|z v IH]; simpl.
  - unfold Rdiv. now rewrite Rmult_0_l.
  - fold (sum_abs2 (idiv v r)). fold (sum_abs2 v). rewrite IH.
    unfold cabs2; simpl. field. exact Hr.
Qed.

(** The in place division by the norm yields a vector of norm one. *)
Lemma norm_checked_state (v : list complex) :
  norm v <> 0 -> norm (checked_state v) = 1.
Proof.
  intros Hn. unfold checked_state, norm in *.
  rewrite sum_abs2_idiv by exact Hn.
  rewrite sqrt_def by apply sum_abs2_nonneg.
  assert (Hs : sum_abs2 v <> 0) by (intros H0; apply Hn; rewrite H0; apply sqrt_0).
  replace (sum_abs2 v / sum_abs2 v) with 1 by (field; exact Hs).
  apply sqrt_1.
Qed.

Lemma length_linspace (a b : R) (num : nat) :
  List.length (linspace a b num) = num.
Proof. unfold linspace. now rewrite length_map, length_seq. Qed.

(** Before the division the simple vector has norm [sqrt (2^n)]. *)
Lemma norm_simple_vector (n : nat) :
  norm (simple_vector n) = sqrt (INR (2 ^ n)).
Proof.
  unfold norm, simple_vector.
  rewrite <- (map_map (fun x => 100 * PI * x) cexp_i).
  rewrite sum_abs2_phases, length_map, length_linspace. reflexivity.
Qed.

Lemma norm_simple_vector_7 : norm (simple_vector n_qubits) <> 1.
Proof.
  rewrite norm_simple_vector. intros H.
  assert (H128 : INR (2 ^ n_qubits) = 128) by (vm_compute Nat.pow; simpl; lra).
  rewrite H128 in H.
  assert (Hsq : sqrt 128 * sqrt 128 = 128) by (apply sqrt_def; lra).
  rewrite H in Hsq. lra.
Qed.

Lemma nth_error_map_seq {A} (f : nat -> A) (n m : nat) :
  (m < n)%nat -> nth_error (map f (seq 0 n)) m = Some (f m).
Proof.
  intros Hm. rewrite nth_error_map, nth_error_seq.
  destruct (Nat.ltb_spec m n); [reflexivity | lia].
Qed.

(** C7, amended: the repository's own code does rescale state vectors: the
    QFT check cell divides each test vector in place by its norm, so that
    the state handed to [check_results] has norm one.  It does not
    normalize a unitary matrix: in [random_unitary_iter] the quotient of the
    matrix by its trace is dropped, and the matrix yielded at turn [m] is
    [expm(2^m * iH)] itself; unitarity is left to the SDK. *)
Theorem states_rescaled_unitaries_not
        (C : Type) (cadd : C -> C -> C) (cconj cmul_i : C -> C)
        (cscale : Z -> C -> C) (random_complex : nat -> matrix C)
        (expm : matrix C -> matrix C) (trace : matrix C -> C)
        (mdiv : matrix C -> C -> matrix C)
        (v : list complex) (r1 r2 m : nat) :
  norm v <> 0 -> (m < r1)%nat ->
  norm (checked_state v) = 1
  /\ nth_error (random_unitary_iter cadd cconj cmul_i cscale random_complex
                                    expm trace mdiv r1 r2) m
     = Some (expm (mscale cscale (2 ^ Z.of_nat m)
                          (mmul_i cmul_i (rham cadd cconj random_complex r2)))).
Proof.
  intros Hv Hm. split; [now apply norm_checked_state|].
  unfold random_unitary_iter. now rewrite nth_error_map_seq.
Qed.

(** The theorem on the simple vector of the cell and, for the unitaries, on
    integer matrices with a division that would change the matrix if its
    result were kept. *)
Lemma states_rescaled_unitaries_not_witness :
  norm simple_state = 1
  /\ nth_error (random_unitary_iter Z.add (fun z => z) Z.opp Z.mul
                  (fun n => Matrix n (fun i j => Z.of_nat (i + j)))
                  (fun a => a) (fun a => entry a 0%nat 0%nat)
                  (fun a _ => Matrix (side a) (fun _ _ => 0%Z)) 3 1) 2
     = Some (mscale Z.mul (2 ^ Z.of_nat 2)
               (mmul_i Z.opp
                  (rham Z.add (fun z => z)
                        (fun n => Matrix n (fun i j => Z.of_nat (i + j))) 1))).
Proof.
  apply (@states_rescaled_unitaries_not Z Z.add (fun z => z) Z.opp Z.mul
           (fun n => Matrix n (fun i j => Z.of_nat (i + j)))
           (fun a => a) (fun a => entry a 0%nat 0%nat)
           (fun a _ => Matrix (side a) (fun _ _ => 0%Z))
           (simple_vector n_qubits) 3 1 2).
  - rewrite norm_simple_vector. apply Rgt_not_eq. apply sqrt_lt_R0.
    apply lt_0_INR. vm_compute Nat.pow. lia.
  - lia.
Defined.

(** C7 as stated fails in the QFT check cell: the simple vector has norm
    [sqrt 128], the state handed to [check_results] has norm one, so the
    cell's own division rescaled it. *)
Lemma qft_check_cell_rescales :
  norm (simple_vector n_qubits) = sqrt 128
  /\ norm simple_state = 1
  /\ simple_state <> simple_vector n_qubits.
Proof.
  assert (H128 : INR (2 ^ n_qubits) = 128) by (vm_compute Nat.pow; simpl; lra).
  assert (Hn : norm (simple_vector n_qubits) = sqrt 128)
    by (rewrite norm_simple_vector, H128; reflexivity).
  assert (H1 : norm simple_state = 1).
  { apply norm_checked_state. rewrite Hn. apply Rgt_not_eq, sqrt_lt_R0. lra. }
  split; [exact Hn|]. split; [exact H1|].
  intros Heq. apply norm_simple_vector_7. now rewrite <- Heq.
Qed.

End QFTCheckFacts.

Module PackagingFacts.

Import Bitstrings Packaging.

Local Open Scope string_scope.

Lemma replace_spaces_length (s : string) :
  String.length (replace_spaces s) = String.length s.
Proof.
  induction s as [|c s IH]; simpl; [reflexivity | now rewrite IH].
Qed.

(** No space of the student's name is left in the file name. *)
Lemma replace_spaces_no_space (s : string) :
  ~ In " "%char (chars (replace_spaces s)).
Proof.
  induction s as [|c s IH]; simpl; [tauto|].
  intros [H | H]; [|exact (IH H)].
  destruct (Ascii.eqb_spec c " "%char) as [->|Hne]; [discriminate | congruence].
Qed.

Section Facts.

Variable figure : Type.
Variable bytes : Type.
Variable savefig : figure -> list (string * string) -> bytes.
Variable json_dumps_encode : json -> nat -> bool -> bytes.


End Facts.

End PackagingFacts.


(** * Further properties of the notebooks' code *)

Module BitstringsExtra.

Import Bitstrings Binary BitstringsFacts.

Lemma chars_app (a b : string) : chars (a ++ b) = chars a ++ chars b.
Proof.
  induction a as [|c a IH]; simpl; [reflexivity | now rewrite IH].
Qed.

Lemma chars_zeros (n : nat) : chars (zeros n) = repeat "0"%char n.
Proof.
  induction n as [|n IH]; simpl; [reflexivity | now rewrite IH].
Qed.

Lemma chars_bin_pos (p : positive) :
  forall acc, chars (bin_pos p acc) = rev (lsb_bits p) ++ chars acc.
Proof.
  induction p as [p IH|p IH|]; intros acc; simpl; try rewrite IH;
    try rewrite <- app_assoc; reflexivity.
Qed.

Lemma length_lsb_bits (p : positive) : List.length (lsb_bits p) = Pos.size_nat p.
Proof.
  induction p as [p IH|p IH|]; simpl; try rewrite IH; reflexivity.
Qed.

Lemma lsb_bits_binary (p : positive) : Forall binary_char (lsb_bits p).
Proof.
  induction p as [p IH|p IH|]; simpl; constructor; unfold binary_char; auto.
Qed.

Lemma bits_value_app (l1 l2 : list ascii) (m : Z) :
  bits_value (l1 ++ l2) m = bits_value l2 (bits_value l1 m).
Proof. unfold bits_value. apply fold_left_app. Qed.

Lemma bits_value_zeros (n : nat) : bits_value (repeat "0"%char n) 0 = 0%Z.
Proof.
  induction n as [|n IH]; [reflexivity|]. exact IH.
Qed.

Lemma bits_value_lsb_bits (p : positive) :
  forall m, bits_value (rev (lsb_bits p)) m
            = (m * 2 ^ Z.of_nat (Pos.size_nat p) + Z.pos p)%Z.
Proof.
  induction p as [p IH|p IH|]; intros m; cbn [lsb_bits rev Pos.size_nat].
  - rewrite bits_value_app, IH. cbn [bits_value fold_left].
    change (bit_of "1") with 1%Z.
    rewrite Nat2Z.inj_succ, Z.pow_succ_r by lia. lia.
  - rewrite bits_value_app, IH. cbn [bits_value fold_left].
    change (bit_of "0") with 0%Z.
    rewrite Nat2Z.inj_succ, Z.pow_succ_r by lia. lia.
  - cbn [app bits_value fold_left]. change (bit_of "1") with 1%Z.
    change (2 ^ Z.of_nat 1)%Z with 2%Z. lia.
Qed.

(** The characters [to_bitstring] writes for a non negative index. *)
Lemma chars_to_bitstring (n : nat) (i : Z) :
  (0 <= i)%Z ->
  chars (to_bitstring n i)
  = match i with
    | Z.pos p => repeat "0"%char (n - Pos.size_nat p) ++ rev (lsb_bits p)
    | _ => repeat "0"%char (n - 1) ++ ["0"%char]
    end.
Proof.
  intros Hi. unfold to_bitstring.
  destruct (Z.ltb_spec i 0); [lia|].
  unfold zfill. rewrite chars_app, chars_zeros.
  destruct i as [|p|p]; [reflexivity| |lia].
  cbn [bin]. rewrite (bin_pos_length p ""). cbn [String.length].
  rewrite Nat.add_0_r, chars_bin_pos. cbn [chars list_ascii_of_string].
  now rewrite app_nil_r.
Qed.

Lemma size_nat_gt (p : positive) : (Z.pos p < 2 ^ Z.of_nat (Pos.size_nat p))%Z.
Proof.
  induction p as [p IH|p IH|]; cbn [Pos.size_nat];
    rewrite Nat2Z.inj_succ, Z.pow_succ_r by lia; lia.
Qed.

Lemma to_bitstring_binary (n : nat) (i : Z) :
  (0 <= i)%Z -> is_binary (to_bitstring n i).
Proof.
  intros Hi. unfold is_binary. rewrite chars_to_bitstring by exact Hi.
  assert (Hz : forall k, Forall binary_char (repeat "0"%char k)).
  { intros k. apply Forall_forall. intros c Hc. apply repeat_spec in Hc.
    now left. }
  destruct i as [|p|p]; apply Forall_app; split; auto.
  - constructor; [now left | constructor].
  - apply Forall_rev, lsb_bits_binary.
  - constructor; [now left | constructor].
Qed.

Lemma bits_value_to_bitstring (n : nat) (i : Z) :
  (0 <= i)%Z -> bits_value (chars (to_bitstring n i)) 0 = i.
Proof.
  intros Hi. rewrite chars_to_bitstring by exact Hi.
  destruct i as [|p|p]; try lia; rewrite bits_value_app, bits_value_zeros.
  - reflexivity.
  - rewrite bits_value_lsb_bits. lia.
Qed.

Lemma to_bitstring_length_ge (n : nat) (i : Z) :
  (0 <= i)%Z -> n <= String.length (to_bitstring n i).
Proof.
  intros Hi. unfold to_bitstring. destruct (Z.ltb_spec i 0); [lia|].
  rewrite zfill_length. lia.
Qed.

(** X1: For a register of [n_qubits >= 1] qubits and an index
    [0 <= i < 2^n_qubits], [to_bitstring] writes exactly [n_qubits]
    characters, all of them 0 or 1, and they are the binary digits of [i],
    most significant first. *)
Theorem to_bitstring_decodes (n_qubits : nat) (i : Z) :
  1 <= n_qubits -> (0 <= i < 2 ^ Z.of_nat n_qubits)%Z ->
  String.length (to_bitstring n_qubits i) = n_qubits
  /\ is_binary (to_bitstring n_qubits i)
  /\ bits_value (chars (to_bitstring n_qubits i)) 0 = i.
Proof.
  intros Hn Hi. split; [now apply to_bitstring_length|].
  split; [apply to_bitstring_binary | apply bits_value_to_bitstring]; lia.
Qed.

Lemma to_bitstring_decodes_witness :
  String.length (to_bitstring 7 77) = 7
  /\ is_binary (to_bitstring 7 77)
  /\ bits_value (chars (to_bitstring 7 77)) 0 = 77%Z.
Proof.
  apply (@to_bitstring_decodes 7 77); [lia | split; [lia | reflexivity]].
Defined.

(** X2: [to_bitstring] never truncates and never confuses two indices: for non
    negative indices it is injective whatever the width, the result has at
    least [n_qubits] characters, and an index of [2^n_qubits] or more gets
    more than [n_qubits] characters. *)
Theorem to_bitstring_injective (n_qubits : nat) (i j : Z) :
  (0 <= i)%Z -> (0 <= j)%Z ->
  (to_bitstring n_qubits i = to_bitstring n_qubits j -> i = j)
  /\ n_qubits <= String.length (to_bitstring n_qubits i)
  /\ ((2 ^ Z.of_nat n_qubits <= i)%Z ->
      n_qubits < String.length (to_bitstring n_qubits i)).
Proof.
  intros Hi Hj. split; [|split].
  - intros E.
    rewrite <- (@bits_value_to_bitstring n_qubits i Hi).
    rewrite <- (@bits_value_to_bitstring n_qubits j Hj).
    now rewrite E.
  - now apply to_bitstring_length_ge.
  - intros Hge. unfold to_bitstring. destruct (Z.ltb_spec i 0); [lia|].
    rewrite zfill_length.
    assert (Hp : (0 < 2 ^ Z.of_nat n_qubits)%Z) by (apply Z.pow_pos_nonneg; lia).
    destruct i as [|p|p]; try lia.
    cbn [bin]. rewrite bin_pos_length. cbn [String.length].
    pose proof (size_nat_gt p) as Hs.
    assert (Hlt : (2 ^ Z.of_nat n_qubits < 2 ^ Z.of_nat (Pos.size_nat p))%Z) by lia.
    apply Z.pow_lt_mono_r_iff in Hlt; lia.
Qed.

Lemma to_bitstring_injective_witness :
  (to_bitstring 2 5 = to_bitstring 2 6 -> 5 = 6)%Z
  /\ 2 <= String.length (to_bitstring 2 5)
  /\ ((2 ^ Z.of_nat 2 <= 5)%Z -> 2 < String.length (to_bitstring 2 5)).
Proof.
  apply (@to_bitstring_injective 2 5 6); lia.
Defined.



Lemma int_of_char_bit_of (c : ascii) :
  binary_char c -> int_of_char c = Ok (bit_of c).
Proof. intros [-> | ->]; reflexivity. Qed.

Lemma bit_of_binary (c : ascii) :
  binary_char c -> (bit_of c = 0 \/ bit_of c = 1)%Z.
Proof. intros [-> | ->]; [left | right]; reflexivity. Qed.

(** The significand of the phase is the bitstring read as a number. *)
Lemma phase_terms_value (l : list ascii) :
  forall (i : nat) (m : Z),
    Forall binary_char l ->
    i + List.length l <= 53 ->
    (0 <= m < 2 ^ Z.of_nat i)%Z ->
    exists terms,
      mapM (fun iv : nat * ascii =>
              k <- int_of_char (snd iv) ;; Ok (fmul_int k (pow2_neg (fst iv))))
           (enumerate_from i l) = Ok terms
      /\ fold_left fadd terms (Float m (- Z.of_nat i))
         = Float (bits_value l m) (- Z.of_nat (i + List.length l)).
Proof.
  induction l as [|c l IH]; intros i m Hbin Hlen Hm.
  - exists []. simpl. rewrite Nat.add_0_r. auto.
  - inversion Hbin as [|? ? Hc Hl]; subst.
    pose proof (bit_of_binary Hc) as Hb01.
    simpl in Hlen.
    destruct (IH (S i) (2 * m + bit_of c)%Z Hl) as (terms & Ht & Hf).
    + lia.
    + rewrite Nat2Z.inj_succ, Z.pow_succ_r by lia. lia.
    + exists (fmul_int (bit_of c) (pow2_neg i) :: terms).
      simpl enumerate_from. simpl mapM. simpl snd. simpl fst.
      rewrite (int_of_char_bit_of Hc). simpl bind. rewrite Ht. simpl bind.
      split; [reflexivity|].
      simpl fold_left. rewrite term_binary by assumption.
      rewrite fadd_next_bit by (auto; lia).
      replace (- (Z.of_nat i + 1))%Z with (- Z.of_nat (S i))%Z by lia.
      simpl List.length.
      replace (i + S (List.length l)) with (S i + List.length l) by lia.
      exact Hf.
Qed.

Lemma phase_of_bitstring_value (s : string) :
  is_binary s -> String.length s <= 53 ->
  phase_of_bitstring s
  = Ok (Float (bits_value (chars s) 0) (- Z.of_nat (String.length s))).
Proof.
  intros Hb Hl. unfold phase_of_bitstring, enumerate, np_fsum.
  rewrite <- chars_length in *.
  destruct (@phase_terms_value (chars s) 0 0%Z Hb) as (terms & Ht & Hf).
  - simpl. lia.
  - simpl. lia.
  - rewrite Ht. simpl bind. simpl in Hf. now rewrite Hf.
Qed.

Lemma np_round_error (x : Q) :
  (inject_Z (np_round x) - x <= 1 # 2)%Q /\ (x - inject_Z (np_round x) <= 1 # 2)%Q.
Proof.
  pose proof (Qfloor_le x) as Hle. pose proof (Qlt_floor x) as Hlt.
  rewrite inject_Z_plus in Hlt. change (inject_Z 1) with 1%Q in Hlt.
  unfold np_round.
  destruct (Qcompare_spec (x - inject_Z (Qfloor x)) (1 # 2)) as [E|L|G].
  - destruct (Z.even (Qfloor x)).
    + split; Lqa.lra.
    + rewrite inject_Z_plus. change (inject_Z 1) with 1%Q. split; Lqa.lra.
  - split; Lqa.lra.
  - rewrite inject_Z_plus. change (inject_Z 1) with 1%Q. split; Lqa.lra.
Qed.

Lemma scaled_bound (a t P e : Q) :
  (0 < P)%Q -> (a - t * P <= e)%Q -> (a / P - t <= e / P)%Q.
Proof.
  intros HP H.
  assert (HP0 : ~ (P == 0)%Q) by (intros E; rewrite E in HP; discriminate).
  setoid_replace (a / P - t)%Q with ((a - t * P) / P)%Q by (field; exact HP0).
  unfold Qdiv. apply Qmult_le_compat_r; [exact H|].
  apply Qlt_le_weak, Qinv_lt_0_compat, HP.
Qed.

Lemma scaled_bound' (a t P e : Q) :
  (0 < P)%Q -> (t * P - a <= e)%Q -> (t - a / P <= e / P)%Q.
Proof.
  intros HP H.
  assert (HP0 : ~ (P == 0)%Q) by (intros E; rewrite E in HP; discriminate).
  setoid_replace (t - a / P)%Q with ((t * P - a) / P)%Q by (field; exact HP0).
  unfold Qdiv. apply Qmult_le_compat_r; [exact H|].
  apply Qlt_le_weak, Qinv_lt_0_compat, HP.
Qed.

(** X4: The phase of the correct bitstring is the target phase up to half a
    resolution step: for [1 <= r1 <= 53], a phase in [0, 1) whose index
    rounds below [2^r1], [phase_of_bitstring] on [get_correct_bitstring]
    returns the index over [2^r1], at most [2^-(r1+1)] away from the target
    phase. *)
Theorem correct_bitstring_phase_error (target_phase : Q) (r1 : nat) :
  1 <= r1 <= 53 -> (0 <= target_phase)%Q -> (target_phase < 1)%Q ->
  (np_round (target_phase * pow2 (Z.of_nat r1))%Q < 2 ^ Z.of_nat r1)%Z ->
  exists phase,
    phase_of_bitstring (get_correct_bitstring target_phase r1) = Ok phase
    /\ (float_value phase
        == inject_Z (np_round (target_phase * pow2 (Z.of_nat r1)))
           / inject_Z (2 ^ Z.of_nat r1))%Q
    /\ (float_value phase - target_phase
        <= 1 / inject_Z (2 ^ Z.of_nat (S r1)))%Q
    /\ (target_phase - float_value phase
        <= 1 / inject_Z (2 ^ Z.of_nat (S r1)))%Q.
Proof.
  intros [Hr1 Hr53] H0 H1 Hk.
  destruct (@get_correct_bitstring_length target_phase r1 Hr1 H0 H1)
    as [Hk0 Hlen].
  cbv zeta in Hk0, Hlen.
  set (x := (target_phase * pow2 (Z.of_nat r1))%Q) in *.
  set (k := np_round x) in *.
  destruct (Z.ltb_spec k (2 ^ Z.of_nat r1)) as [_|]; [|lia].
  assert (Hg : get_correct_bitstring target_phase r1 = to_bitstring r1 k)
    by reflexivity.
  assert (Hbin : is_binary (get_correct_bitstring target_phase r1))
    by (rewrite Hg; apply to_bitstring_binary; lia).
  assert (Hval : bits_value (chars (get_correct_bitstring target_phase r1)) 0 = k)
    by (rewrite Hg; apply bits_value_to_bitstring; lia).
  eexists. split.
  { rewrite phase_of_bitstring_value; [reflexivity | exact Hbin | lia]. }
  rewrite Hval, Hlen.
  pose proof (float_value_dyadic k r1) as Hv.
  assert (Hp : (0 < 2 ^ Z.of_nat r1)%Z) by (apply Z.pow_pos_nonneg; lia).
  assert (HP : (0 < inject_Z (2 ^ Z.of_nat r1))%Q)
    by (rewrite <- (Zlt_Qlt 0); exact Hp).
  assert (HP0 : ~ (inject_Z (2 ^ Z.of_nat r1) == 0)%Q)
    by (intros E; rewrite E in HP; discriminate).
  assert (Hhalf : ((1 # 2) / inject_Z (2 ^ Z.of_nat r1)
                   == 1 / inject_Z (2 ^ Z.of_nat (S r1)))%Q).
  { rewrite Nat2Z.inj_succ, Z.pow_succ_r, inject_Z_mult by lia.
    change (inject_Z 2) with 2%Q. field. exact HP0. }
  destruct (np_round_error x) as [Hup Hdown]. fold k in Hup, Hdown.
  assert (Hx : (x == target_phase * inject_Z (2 ^ Z.of_nat r1))%Q)
    by (unfold x; now rewrite pow2_nat).
  split; [exact Hv|]. rewrite Hv, <- Hhalf. split.
  - apply scaled_bound; [exact HP|]. now rewrite <- Hx.
  - apply scaled_bound'; [exact HP|]. now rewrite <- Hx.
Qed.

Lemma correct_bitstring_phase_error_witness :
  exists phase,
    phase_of_bitstring (get_correct_bitstring (1 # 3) 4) = Ok phase
    /\ (float_value phase
        == inject_Z (np_round ((1 # 3) * pow2 (Z.of_nat 4)))
           / inject_Z (2 ^ Z.of_nat 4))%Q
    /\ (float_value phase - (1 # 3) <= 1 / inject_Z (2 ^ Z.of_nat 5))%Q
    /\ ((1 # 3) - float_value phase <= 1 / inject_Z (2 ^ Z.of_nat 5))%Q.
Proof.
  apply (@correct_bitstring_phase_error (1 # 3) 4);
    [lia | discriminate | reflexivity | reflexivity].
Defined.

Lemma from_bitstring_terms (n_qubits : nat) (l : list ascii) :
  Forall binary_char l ->
  forall a : Q,
  exists terms,
    mapM (fun b => v <- int_of_char b ;;
                   Ok (pow2 (Z.of_nat n_qubits - 1 - v)%Z)) l = Ok terms
    /\ (fold_left Qplus terms a
        == a
           + inject_Z (Z.of_nat (List.length (filter (fun c => Ascii.eqb c "0") l)))
             * pow2 (Z.of_nat n_qubits - 1)
           + inject_Z (Z.of_nat (List.length (filter (fun c => Ascii.eqb c "1") l)))
             * pow2 (Z.of_nat n_qubits - 2))%Q.
Proof.
  induction l as [|c l IH]; intros Hbin a.
  - exists []. split; [reflexivity|]. simpl. ring.
  - inversion Hbin as [|? ? Hc Hl]; subst.
    destruct Hc as [-> | ->].
    + destruct (IH Hl (a + pow2 (Z.of_nat n_qubits - 1))%Q) as (terms & Ht & Hs).
      exists (pow2 (Z.of_nat n_qubits - 1 - 0) :: terms).
      cbn [mapM]. change (int_of_char "0") with (Ok 0%Z). cbn [bind].
      rewrite Ht. cbn [bind]. split; [reflexivity|].
      cbn [fold_left filter]. change (Ascii.eqb "0" "0") with true.
      change (Ascii.eqb "0" "1") with false. cbn [List.length].
      rewrite Z.sub_0_r, Hs, Nat2Z.inj_succ. unfold Z.succ.
      rewrite inject_Z_plus. change (inject_Z 1) with 1%Q. ring.
    + destruct (IH Hl (a + pow2 (Z.of_nat n_qubits - 2))%Q) as (terms & Ht & Hs).
      exists (pow2 (Z.of_nat n_qubits - 1 - 1) :: terms).
      cbn [mapM]. change (int_of_char "1") with (Ok 1%Z). cbn [bind].
      rewrite Ht. cbn [bind]. split; [reflexivity|].
      cbn [fold_left filter]. change (Ascii.eqb "1" "0") with false.
      change (Ascii.eqb "1" "1") with true. cbn [List.length].
      replace (Z.of_nat n_qubits - 1 - 1)%Z with (Z.of_nat n_qubits - 2)%Z by lia.
      rewrite Hs, Nat2Z.inj_succ. unfold Z.succ.
      rewrite inject_Z_plus. change (inject_Z 1) with 1%Q. ring.
Qed.



Lemma int_of_char_digit (c : ascii) :
  int_of_char c
  = if is_digit c then Ok (Z.of_nat (nat_of_ascii c - 48))
    else Raise (Exn FromRuntime "ValueError" "invalid literal for int()").
Proof. reflexivity. Qed.

Lemma mapM_all_ok {A B} (f : A -> result B) (l : list A) :
  Forall (fun a => exists b, f a = Ok b) l -> exists bs, mapM f l = Ok bs.
Proof.
  induction 1 as [|a l [b Hb] _ [bs Hbs]]; [now exists []|].
  exists (b :: bs). simpl. now rewrite Hb, Hbs.
Qed.

Lemma mapM_raises {A B} (f : A -> result B) (Bad : exn -> Prop) (l : list A) :
  (forall a e, f a = Raise e -> Bad e) ->
  Exists (fun a => exists e, f a = Raise e) l ->
  exists e, mapM f l = Raise e /\ Bad e.
Proof.
  intros Hbad. induction 1 as [a l [e He]|a l _ [e [He Hb]]].
  - exists e. simpl. rewrite He. split; [reflexivity | now apply (Hbad a)].
  - simpl. destruct (f a) as [b|e'] eqn:E.
    + exists e. now rewrite He.
    + exists e'. split; [reflexivity | now apply (Hbad a)].
Qed.

(** X6: [from_bitstring] accepts exactly the strings of decimal digits: it
    returns a number when every character is a digit (the empty string
    included), and a [ValueError] comes out of [int] as soon as one
    character is not; any argument that is not a string is returned
    unchanged. *)
Theorem from_bitstring_errors (n_qubits : nat) (bitstring : string) (v : Q) :
  (Forall (fun c => is_digit c = true) (chars bitstring) ->
   exists w, from_bitstring n_qubits (BStr bitstring) = Ok w)
  /\ (Exists (fun c => is_digit c = false) (chars bitstring) ->
      from_bitstring n_qubits (BStr bitstring)
      = Raise (Exn FromRuntime "ValueError" "invalid literal for int()"))
  /\ from_bitstring n_qubits (BStr "") = Ok 0%Q
  /\ from_bitstring n_qubits (BOther v) = Ok v.
Proof.
  split; [|split; [|split; reflexivity]].
  - intros Hd. unfold from_bitstring.
    destruct (@mapM_all_ok _ _
                (fun b => v <- int_of_char b ;;
                          Ok (pow2 (Z.of_nat n_qubits - 1 - v)%Z))
                (chars bitstring)) as [terms Ht].
    + eapply Forall_impl; [|exact Hd]. intros c Hc. cbv beta.
      rewrite int_of_char_digit, Hc. cbn [bind]. eauto.
    + rewrite Ht. cbn [bind]. eauto.
  - intros Hd. unfold from_bitstring.
    destruct (@mapM_raises _ _
                (fun b => v <- int_of_char b ;;
                          Ok (pow2 (Z.of_nat n_qubits - 1 - v)%Z))
                (fun e => e = Exn FromRuntime "ValueError"
                                  "invalid literal for int()")
                (chars bitstring)) as (e & He & ->).
    + intros c e. rewrite int_of_char_digit.
      destruct (is_digit c); cbn [bind]; [discriminate | now intros [= <-]].
    + eapply Exists_impl; [|exact Hd]. intros c Hc. cbv beta.
      rewrite int_of_char_digit, Hc. cbn [bind]. eauto.
    + rewrite He. reflexivity.
Qed.

Section PhaseOfCircuit.

Variable most_frequent : counts -> result string.

(** X7: [get_phase_from_qpe_circuit] of the phase estimation notebook: when the
    bitstrings sampled on the first register are made of 0s and 1s and have
    at most 53 characters, and the SDK's [most_frequent] answers one of
    them, the phase returned is [k / 2^n] for the most frequent bitstring
    read as the binary number [k] on [n] characters; when it raises, the
    exception is the one of the SDK's [most_frequent]. *)
Theorem get_phase_from_qpe_circuit_value (c : counts) :
  (forall b, In b (map fst c) -> is_binary b /\ String.length b <= 53) ->
  (forall b, most_frequent c = Ok b -> In b (map fst c)) ->
  match get_phase_from_qpe_circuit most_frequent (Ok c) with
  | Ok phase =>
      exists b, most_frequent c = Ok b
                /\ (float_value phase
                    == inject_Z (bits_value (chars b) 0)
                       / inject_Z (2 ^ Z.of_nat (String.length b)))%Q
                /\ (0 <= float_value phase)%Q /\ (float_value phase < 1)%Q
  | Raise e => most_frequent c = Raise e
  end.
Proof.
  intros Hkeys Hmf. unfold get_phase_from_qpe_circuit. cbn [bind].
  destruct (most_frequent c) as [b|e] eqn:Eb; cbn [bind]; [|reflexivity].
  destruct (Hkeys b (Hmf b eq_refl)) as [Hbin Hlen].
  rewrite (phase_of_bitstring_value Hbin Hlen).
  destruct (phase_of_bitstring_exact Hbin Hlen) as (k & Hp & Hk).
  rewrite (phase_of_bitstring_value Hbin Hlen) in Hp.
  injection Hp as Hp.
  exists b. split; [reflexivity|].
  pose proof (float_value_dyadic (bits_value (chars b) 0) (String.length b)) as Hv.
  rewrite Hp in Hv |- *.
  destruct (dyadic_unit_interval (String.length b) Hk) as [H0 H1].
  split; [exact Hv|]. rewrite Hv. auto.
Qed.

End PhaseOfCircuit.

Lemma get_phase_from_qpe_circuit_value_witness :
  match get_phase_from_qpe_circuit most_frequent_model
          (Ok [("1001000"%string, 640%Z); ("1000111"%string, 360%Z)]) with
  | Ok phase =>
      exists b,
        most_frequent_model [("1001000"%string, 640%Z); ("1000111"%string, 360%Z)]
        = Ok b
        /\ (float_value phase
            == inject_Z (bits_value (chars b) 0)
               / inject_Z (2 ^ Z.of_nat (String.length b)))%Q
        /\ (0 <= float_value phase)%Q /\ (float_value phase < 1)%Q
  | Raise e =>
      most_frequent_model [("1001000"%string, 640%Z); ("1000111"%string, 360%Z)]
      = Raise e
  end.
Proof.
  apply (@get_phase_from_qpe_circuit_value most_frequent_model).
  - intros b [<- | [<- | []]]; (split; [|simpl; lia]);
      unfold is_binary; simpl;
      repeat (apply Forall_cons; [unfold binary_char; auto|]);
      apply Forall_nil.
  - apply most_frequent_model_key.
Defined.

End BitstringsExtra.

Module HardwareCircuitExtra.

Import Bitstrings Binary BitstringsFacts BitstringsExtra HardwareCircuit.

Lemma map_nth_error_seq {A} (l : list A) :
  map (nth_error l) (seq 0 (List.length l)) = map Some l.
Proof.
  induction l as [|a l IH]; [reflexivity|].
  cbn [List.length seq map nth_error]. f_equal.
  rewrite <- seq_shift, map_map. exact IH.
Qed.

(** Counting through the indices of a list counts its elements. *)
Lemma count_by_index {A} (f : A -> bool) (l : list A) :
  List.length (filter (fun i => match nth_error l i with
                                | Some c => f c
                                | None => false
                                end) (seq 0 (List.length l)))
  = List.length (filter f l).
Proof.
  set (h := fun o : option A => match o with Some c => f c | None => false end).
  change (List.length (filter (fun i => h (nth_error l i)) (seq 0 (List.length l)))
          = List.length (filter (fun c => h (Some c)) l)).
  rewrite <- (length_map (nth_error l)), <- (filter_map_swap h (nth_error l)).
  rewrite map_nth_error_seq, (filter_map_swap h Some).
  apply length_map.
Qed.

Lemma count_reversed_ones (bitstring : string) :
  List.length (filter (reversed_is_one bitstring)
                      (seq 0 (String.length bitstring)))
  = count_ones bitstring.
Proof.
  unfold reversed_is_one, count_ones.
  rewrite <- chars_length, <- (length_rev (chars bitstring)).
  rewrite (count_by_index (fun c => Ascii.eqb c "1") (rev (chars bitstring))).
  now rewrite filter_rev, length_rev.
Qed.

Lemma lsb_bits_testbit (p : positive) :
  forall k, match nth_error (lsb_bits p) k with
            | Some c => Ascii.eqb c "1"
            | None => false
            end = Z.testbit (Z.pos p) (Z.of_nat k).
Proof.
  induction p as [p IH|p IH|]; intros [|k]; cbn [lsb_bits nth_error];
    try reflexivity.
  - rewrite IH, Nat2Z.inj_succ, Pos2Z.inj_xI.
    symmetry. apply Z.testbit_odd_succ. lia.
  - rewrite IH, Nat2Z.inj_succ, Pos2Z.inj_xO.
    symmetry. apply Z.testbit_even_succ. lia.
  - rewrite Nat2Z.inj_succ. change 1%Z with (2 * 0 + 1)%Z.
    rewrite Z.testbit_odd_succ by lia. rewrite Z.testbit_0_l.
    now destruct k.
Qed.

Lemma all_zero_not_one (l : list ascii) (k : nat) :
  Forall (fun c => c = "0"%char) l ->
  match nth_error l k with
  | Some c => Ascii.eqb c "1"
  | None => false
  end = false.
Proof.
  intros Hl. destruct (nth_error l k) as [c|] eqn:E; [|reflexivity].
  apply nth_error_In in E. rewrite Forall_forall in Hl.
  now rewrite (Hl c E).
Qed.

(** The character of rank [k] from the right is the bit of rank [k]. *)
Lemma reversed_is_one_to_bitstring (n : nat) (i : Z) (k : nat) :
  (0 <= i)%Z ->
  reversed_is_one (to_bitstring n i) k = Z.testbit i (Z.of_nat k).
Proof.
  intros Hi. unfold reversed_is_one. rewrite chars_to_bitstring by exact Hi.
  assert (Hz : forall m, Forall (fun c => c = "0"%char) (repeat "0"%char m)).
  { intros m. apply Forall_forall. intros c Hc. now apply repeat_spec in Hc. }
  destruct i as [|p|p]; [| |lia].
  - rewrite Z.testbit_0_l. apply all_zero_not_one.
    apply Forall_rev, Forall_app. split; [apply Hz|].
    constructor; [reflexivity | constructor].
  - rewrite rev_app_distr, rev_involutive, <- lsb_bits_testbit.
    destruct (Nat.lt_ge_cases k (List.length (lsb_bits p))) as [Hk|Hk].
    + now rewrite nth_error_app1.
    + rewrite nth_error_app2 by exact Hk.
      rewrite all_zero_not_one by apply Forall_rev, Hz.
      apply nth_error_None in Hk. now rewrite Hk.
Qed.

Section Facts.

Variable hamiltonian : Type.

Local Abbreviation circuit := (QuantumCircuit hamiltonian).
Local Abbreviation X := (XGate hamiltonian).

Lemma x_spec (qs : list nat) :
  forall circ : circuit,
    x circ qs = Circuit (qregs circ)
                        (data circ ++ map (fun q => Instr X [q]) qs).
Proof.
  induction qs as [|q qs IH]; intros circ; simpl.
  - rewrite app_nil_r. now destruct circ.
  - rewrite IH. simpl. now rewrite <- app_assoc.
Qed.

Lemma qreg_qubits_in_range (circ : circuit) (name : string) (r2 : nat)
      (inds : list nat) :
  nth_error (qregs circ) 1 = Some (name, r2) ->
  Forall (fun ind => ind < r2) inds ->
  mapM (qreg_qubit circ 1) inds
  = Ok (map (fun ind => register_offset circ 1 + ind) inds).
Proof.
  intros Hreg. induction 1 as [|ind inds Hind _ IH]; [reflexivity|].
  cbn [mapM map]. unfold qreg_qubit at 1. rewrite Hreg. cbn [snd].
  destruct (Nat.ltb_spec ind r2); [|lia]. cbn [bind]. now rewrite IH.
Qed.

Lemma qreg_qubits_out_of_range (circ : circuit) (name : string) (r2 : nat)
      (inds : list nat) :
  nth_error (qregs circ) 1 = Some (name, r2) ->
  Exists (fun ind => r2 <= ind) inds ->
  mapM (qreg_qubit circ 1) inds
  = Raise (Exn FromSdk "IndexError" "register index out of range").
Proof.
  intros Hreg. induction 1 as [ind inds Hind|ind inds _ IH].
  - cbn [mapM]. unfold qreg_qubit. rewrite Hreg. cbn [snd].
    destruct (Nat.ltb_spec ind r2); [lia | reflexivity].
  - cbn [mapM]. unfold qreg_qubit at 1. rewrite Hreg. cbn [snd].
    destruct (Nat.ltb_spec ind r2); [|reflexivity].
    cbn [bind]. now rewrite IH.
Qed.

Lemma bitstring_preparation_circuit_gates_aux (circ : circuit)
      (bitstring name : string) (r2 : nat) :
  nth_error (qregs circ) 1 = Some (name, r2) ->
  (forall ind, ind < String.length bitstring ->
               reversed_is_one bitstring ind = true -> ind < r2) ->
  exists circ',
    bitstring_preparation_circuit circ bitstring = Ok circ'
    /\ qregs circ' = qregs circ
    /\ data circ'
       = data circ
         ++ map (fun ind => Instr X [register_offset circ 1 + ind])
                (filter (reversed_is_one bitstring)
                        (seq 0 (String.length bitstring))).
Proof.
  intros Hreg Hin. unfold bitstring_preparation_circuit.
  set (inds := filter (reversed_is_one bitstring)
                      (seq 0 (String.length bitstring))).
  assert (Hinds : Forall (fun ind => ind < r2) inds).
  { apply Forall_forall. intros ind Hi. apply filter_In in Hi.
    destruct Hi as [Hs Hone]. apply in_seq in Hs. apply Hin; [lia | exact Hone]. }
  rewrite (@qreg_qubits_in_range circ name r2 inds Hreg Hinds). cbn [bind].
  destruct inds as [|ind inds'].
  - exists circ. cbn [map]. now rewrite app_nil_r.
  - eexists. split; [reflexivity|]. rewrite x_spec. cbn [qregs data].
    now rewrite map_map.
Qed.


(** X8: [bitstring_preparation_circuit]: when every "1" of the bitstring,
    counted from the right, falls inside the second register, the function
    returns the circuit with one X gate appended for each "1", on the qubit
    of the second register whose rank is the rank of the character from the
    right, lowest rank first; the registers are unchanged and nothing else
    is appended. *)
Theorem bitstring_preparation_circuit_gates (circ : circuit)
        (bitstring name : string) (r2 : nat) :
  nth_error (qregs circ) 1 = Some (name, r2) ->
  (forall ind, ind < String.length bitstring ->
               reversed_is_one bitstring ind = true -> ind < r2) ->
  exists circ',
    bitstring_preparation_circuit circ bitstring = Ok circ'
    /\ qregs circ' = qregs circ
    /\ data circ'
       = data circ
         ++ map (fun ind => Instr X [register_offset circ 1 + ind])
                (filter (reversed_is_one bitstring)
                        (seq 0 (String.length bitstring)))
    /\ List.length (data circ')
       = List.length (data circ) + count_ones bitstring.
Proof.
  intros Hreg Hin.
  destruct (@bitstring_preparation_circuit_gates_aux circ bitstring name r2
              Hreg Hin) as (circ' & Hc & Hq & Hd).
  exists circ'. repeat split; try assumption.
  now rewrite Hd, length_app, length_map, count_reversed_ones.
Qed.


(** X9: Edge cases of [bitstring_preparation_circuit]: a bitstring without any
    "1" (the empty one included) leaves the circuit as it is, whatever its
    length and whatever registers the circuit has, because no qubit is
    looked up; a "1" whose rank from the right is beyond the second
    register makes the register raise [IndexError]. *)
Theorem bitstring_preparation_circuit_edges (circ : circuit)
        (bitstring name : string) (r2 : nat) :
  (count_ones bitstring = 0 ->
   bitstring_preparation_circuit circ bitstring = Ok circ)
  /\ (nth_error (qregs circ) 1 = Some (name, r2) ->
      (exists ind, ind < String.length bitstring
                   /\ reversed_is_one bitstring ind = true /\ r2 <= ind) ->
      bitstring_preparation_circuit circ bitstring
      = Raise (Exn FromSdk "IndexError" "register index out of range")).
Proof.
  split.
  - intros H0. unfold bitstring_preparation_circuit.
    rewrite <- count_reversed_ones in H0.
    apply length_zero_iff_nil in H0. rewrite H0. reflexivity.
  - intros Hreg (ind & Hlt & Hone & Hge).
    unfold bitstring_preparation_circuit.
    rewrite (@qreg_qubits_out_of_range circ name r2); [reflexivity | exact Hreg |].
    apply Exists_exists. exists ind. split; [|exact Hge].
    apply filter_In. split; [apply in_seq; lia | exact Hone].
Qed.

(** X10: Preparing the bitstring of an index: for a second register of
    [r2 >= 1] qubits and [0 <= i < 2^r2],
    [bitstring_preparation_circuit] on [to_bitstring r2 i] appends an X gate
    on the qubit of rank [k] of the second register exactly when bit [k] of
    [i] is set, so that qubit [k] carries the binary digit of weight
    [2^k]. *)
Theorem bitstring_preparation_circuit_index (circ : circuit) (name : string)
        (r2 : nat) (i : Z) :
  nth_error (qregs circ) 1 = Some (name, r2) ->
  1 <= r2 -> (0 <= i < 2 ^ Z.of_nat r2)%Z ->
  exists circ',
    bitstring_preparation_circuit circ (to_bitstring r2 i) = Ok circ'
    /\ data circ'
       = data circ
         ++ map (fun k => Instr X [register_offset circ 1 + k])
                (filter (fun k => Z.testbit i (Z.of_nat k)) (seq 0 r2)).
Proof.
  intros Hreg Hr2 Hi.
  assert (Hlen : String.length (to_bitstring r2 i) = r2)
    by (now apply to_bitstring_length).
  destruct (@bitstring_preparation_circuit_gates_aux circ (to_bitstring r2 i)
              name r2 Hreg) as (circ' & Hc & _ & Hd).
  { intros ind Hlt _. now rewrite Hlen in Hlt. }
  exists circ'. split; [exact Hc|]. rewrite Hd, Hlen. f_equal. f_equal.
  apply filter_ext. intros k. apply reversed_is_one_to_bitstring. lia.
Qed.


End Facts.

Lemma bitstring_preparation_circuit_gates_witness :
  exists circ',
    bitstring_preparation_circuit
      (Circuit [("first"%string, 3); ("second"%string, 4)] (@nil (instruction unit)))
      "0101" = Ok circ'
    /\ qregs circ' = [("first"%string, 3); ("second"%string, 4)]
    /\ data circ'
       = [] ++ map (fun ind => Instr (XGate unit) [3 + ind])
                   (filter (reversed_is_one "0101") (seq 0 4))
    /\ List.length (data circ') = 0 + count_ones "0101".
Proof.
  apply (@bitstring_preparation_circuit_gates unit
           (Circuit [("first"%string, 3); ("second"%string, 4)] [])
           "0101" "second" 4).
  - reflexivity.
  - intros ind Hlt _. exact Hlt.
Defined.

Lemma bitstring_preparation_circuit_index_witness :
  exists circ',
    bitstring_preparation_circuit
      (Circuit [("first"%string, 3); ("second"%string, 4)] (@nil (instruction unit)))
      (to_bitstring 4 5) = Ok circ'
    /\ data circ'
       = [] ++ map (fun k => Instr (XGate unit) [3 + k])
                   (filter (fun k => Z.testbit 5 (Z.of_nat k)) (seq 0 4)).
Proof.
  apply (@bitstring_preparation_circuit_index unit
           (Circuit [("first"%string, 3); ("second"%string, 4)] [])
           "second" 4 5); [reflexivity | lia | split; [lia | reflexivity]].
Defined.

End HardwareCircuitExtra.

Module SweepExtra.

Import Bitstrings Hardware Sweep SweepSpec SweepFacts.

Section DictMore.

Variables K V : Type.
Variable K_eq_dec : forall x y : K, {x = y} + {x <> y}.

Lemma dict_get_set_other (d : dict K V) (k k' : K) (v : V) :
  k <> k' -> dict_get K_eq_dec (dict_set K_eq_dec d k v) k' = dict_get K_eq_dec d k'.
Proof.
  intros Hne. induction d as [|[k0 v0] d IH]; simpl.
  - destruct (K_eq_dec k k'); [congruence | reflexivity].
  - destruct (K_eq_dec k0 k) as [->|Hk]; simpl.
    + destruct (K_eq_dec k k'); [congruence | reflexivity].
    + destruct (K_eq_dec k0 k'); [reflexivity | exact IH].
Qed.

Lemma dict_get_some_in (d : dict K V) (k : K) (v : V) :
  dict_get K_eq_dec d k = Some v -> In k (keys d).
Proof.
  induction d as [|[k0 v0] d IH]; simpl; [discriminate|].
  destruct (K_eq_dec k0 k) as [->|Hk]; [now left | right; now apply IH].
Qed.

Lemma dict_get_none (d : dict K V) (k : K) :
  ~ In k (keys d) -> dict_get K_eq_dec d k = None.
Proof.
  intros Hn. destruct (dict_get K_eq_dec d k) as [v|] eqn:E; [|reflexivity].
  now apply dict_get_some_in in E.
Qed.

Lemma dict_set_fresh (d : dict K V) (k : K) (v : V) :
  ~ In k (keys d) -> dict_set K_eq_dec d k v = d ++ [(k, v)].
Proof.
  induction d as [|[k0 v0] d IH]; simpl; intros Hn; [reflexivity|].
  destruct (K_eq_dec k0 k) as [->|Hk]; [tauto|].
  rewrite IH by tauto. reflexivity.
Qed.

Lemma dict_get_map (f : K -> V) (l : list K) (k : K) :
  In k l -> dict_get K_eq_dec (map (fun p => (p, f p)) l) k = Some (f k).
Proof.
  induction l as [|a l IH]; simpl; [tauto|].
  intros Hin. destruct (K_eq_dec a k) as [->|Hne]; [reflexivity|].
  apply IH. destruct Hin; [congruence | assumption].
Qed.

Lemma dict_get_nodup (d : dict K V) (k : K) (v : V) :
  NoDup (keys d) -> In (k, v) d -> dict_get K_eq_dec d k = Some v.
Proof.
  induction d as [|[k0 v0] d IH]; simpl; intros Hnd Hin; [tauto|].
  inversion Hnd as [|? ? Hk0 Hd]; subst.
  destruct Hin as [[= -> ->]|Hin].
  - destruct (K_eq_dec k k); [reflexivity | congruence].
  - destruct (K_eq_dec k0 k) as [->|Hne].
    + exfalso. apply Hk0. change k with (fst (k, v)). now apply in_map.
    + now apply IH.
Qed.

End DictMore.

Lemma array_set_nth (arr : list Q) (ind : nat) (v : Q) :
  ind < List.length arr ->
  exists arr', array_set arr ind v = Ok arr'
               /\ List.length arr' = List.length arr
               /\ forall j, nth j arr' 0%Q
                            = if j =? ind then v else nth j arr 0%Q.
Proof.
  intros Hi. unfold array_set.
  destruct (Nat.ltb_spec ind (List.length arr)); [|lia].
  eexists. split; [reflexivity|]. split.
  - rewrite length_app. cbn [List.length].
    rewrite length_firstn, length_skipn. lia.
  - intros j. destruct (Nat.eqb_spec j ind) as [->|Hne].
    + rewrite app_nth2 by (rewrite length_firstn; lia).
      rewrite length_firstn.
      replace (ind - Nat.min ind (List.length arr)) with 0 by lia.
      reflexivity.
    + destruct (Nat.lt_ge_cases j ind) as [Hlt|Hge].
      * rewrite app_nth1 by (rewrite length_firstn; lia).
        rewrite <- (firstn_skipn ind arr) at 2.
        rewrite app_nth1 by (rewrite length_firstn; lia). reflexivity.
      * rewrite app_nth2 by (rewrite length_firstn; lia).
        rewrite length_firstn.
        replace (j - Nat.min ind (List.length arr)) with (S (j - S ind)) by lia.
        cbn [nth].
        rewrite <- (firstn_skipn (S ind) arr) at 2.
        rewrite app_nth2 by (rewrite length_firstn; lia).
        rewrite length_firstn.
        replace (j - Nat.min (S ind) (List.length arr)) with (j - S ind) by lia.
        reflexivity.
Qed.

Lemma nth_np_zeros (n j : nat) : nth j (np_zeros n) 0%Q = 0%Q.
Proof.
  unfold np_zeros. revert j. induction n as [|n IH]; intros [|j]; simpl; auto.
Qed.

Lemma holds_ext (n : nat) (M M' : string -> Prop) (f f' : string -> nat -> Q)
      (bc : dict string (list Q)) :
  holds n M f bc ->
  (forall b, M' b <-> M b) ->
  (forall b j, j < n -> f' b j = f b j) ->
  holds n M' f' bc.
Proof.
  intros H HM Hf b. specialize (H b).
  destruct (dict_get string_dec bc b) as [arr|].
  - destruct H as (Hm & Hl & Hn). split; [now apply HM|]. split; [exact Hl|].
    intros j Hj. now rewrite Hf, Hn.
  - now rewrite HM.
Qed.

(** One turn of the inner loop writes the count of one bitstring at the
    rank of the sweep point, creating the array when the bitstring is
    new. *)
Lemma record_count_holds (n i : nat) (M : string -> Prop)
      (f : string -> nat -> Q) (bc : dict string (list Q))
      (b0 : string) (c0 : Z) :
  i < n -> holds n M f bc -> (forall b j, ~ M b -> f b j = 0%Q) ->
  exists bc',
    record_count n i bc (b0, c0) = Ok bc'
    /\ holds n (fun b => M b \/ b = b0)
             (fun b j => if string_dec b b0
                         then (if j =? i then inject_Z c0 else f b j)
                         else f b j) bc'.
Proof.
  intros Hi Hbc Hzero. unfold record_count. cbv beta iota zeta.
  match goal with
  | |- context [dict_get string_dec ?d b0] => set (bc1 := d)
  end.
  assert (H1 : exists arr,
             dict_get string_dec bc1 b0 = Some arr
             /\ List.length arr = n
             /\ (forall j, j < n -> nth j arr 0%Q = f b0 j)
             /\ (forall b, b <> b0 ->
                           dict_get string_dec bc1 b = dict_get string_dec bc b)).
  { unfold bc1, in_keys.
    destruct (in_dec string_dec b0 (keys bc)) as [Hin|Hnin].
    - destruct (dict_get_in_keys string_dec bc b0 Hin) as (arr & Hg & _).
      pose proof (Hbc b0) as Hb0. rewrite Hg in Hb0.
      destruct Hb0 as (_ & Hl & Hn). exists arr. auto.
    - exists (np_zeros n). split; [apply dict_get_set_same|].
      split; [apply repeat_length|]. split.
      + intros j _. rewrite nth_np_zeros. symmetry. apply Hzero.
        pose proof (Hbc b0) as Hb0.
        now rewrite (dict_get_none string_dec bc b0 Hnin) in Hb0.
      + intros b Hne. apply dict_get_set_other. congruence. }
  destruct H1 as (arr & Hget & Hlen & Hnth & Hother). rewrite Hget.
  destruct (@array_set_nth arr i (inject_Z c0)) as (arr' & -> & Hl' & Hn');
    [lia|].
  cbn [bind]. eexists. split; [reflexivity|].
  intros b. destruct (string_dec b b0) as [->|Hne].
  - rewrite dict_get_set_same. split; [now right|]. split; [lia|].
    intros j Hj. rewrite Hn'. destruct (j =? i); [reflexivity | now apply Hnth].
  - rewrite dict_get_set_other by congruence. rewrite Hother by exact Hne.
    specialize (Hbc b). destruct (dict_get string_dec bc b) as [a|].
    + destruct Hbc as (Hm & Hl & Hn). auto.
    + intros [Hm | Hb]; [now apply Hbc | contradiction].
Qed.

Lemma lookup_count_cons (b0 b : string) (c0 : Z) (oc : counts) :
  lookup_count ((b0, c0) :: oc) b
  = if string_dec b0 b then inject_Z c0 else lookup_count oc b.
Proof.
  unfold lookup_count. simpl. now destruct (string_dec b0 b).
Qed.

(** The inner loop over the counts of one sweep point. *)
Lemma inner_loop_holds (n i : nat) (todo : counts) :
  i < n ->
  forall (M M' : string -> Prop) (f f' : string -> nat -> Q)
         (bc : dict string (list Q)),
    NoDup (keys todo) ->
    holds n M f bc -> (forall b j, ~ M b -> f b j = 0%Q) ->
    (forall b, M' b <-> M b \/ In b (keys todo)) ->
    (forall b j, j < n ->
                 f' b j = if (j =? i) && in_keys string_dec b todo
                          then lookup_count todo b else f b j) ->
    exists bc', foldM (record_count n i) todo bc = Ok bc' /\ holds n M' f' bc'.
Proof.
  intros Hi. induction todo as [|[b0 c0] todo IH];
    intros M M' f f' bc Hnd Hbc Hzero HM Hf.
  - exists bc. split; [reflexivity|].
    apply (@holds_ext n M M' f f' bc Hbc).
    + intros b. rewrite HM. simpl. tauto.
    + intros b j Hj. rewrite Hf by exact Hj.
      unfold in_keys. simpl. now rewrite andb_false_r.
  - cbn [foldM]. inversion Hnd as [|? ? Hb0 Hnd']; subst.
    destruct (@record_count_holds n i M f bc b0 c0 Hi Hbc Hzero) as (bc1 & -> & H1).
    cbn [bind]. eapply IH; [exact Hnd' | exact H1 | | |].
    + intros b j Hn. cbv beta in *. destruct (string_dec b b0) as [->|Hne].
      * exfalso. apply Hn. now right.
      * apply Hzero. tauto.
    + intros b. rewrite HM. simpl. split; intros H; intuition (subst; auto).
    + intros b j Hj. cbv beta. rewrite Hf by exact Hj.
      rewrite lookup_count_cons. unfold in_keys.
      destruct (string_dec b b0) as [->|Hne].
      * destruct (in_dec string_dec b0 (keys ((b0, c0) :: todo))) as [_|Hn];
          [|exfalso; apply Hn; now left].
        destruct (in_dec string_dec b0 (keys todo)) as [Hin|_];
          [contradiction|].
        destruct (string_dec b0 b0); [|congruence].
        rewrite andb_true_r, andb_false_r. reflexivity.
      * destruct (string_dec b0 b); [congruence|].
        destruct (in_dec string_dec b (keys ((b0, c0) :: todo))) as [Hin|Hn];
          destruct (in_dec string_dec b (keys todo)) as [Hin'|Hn'];
          try reflexivity.
        -- exfalso. destruct Hin as [E|Hin]; [simpl in E; congruence | contradiction].
        -- exfalso. apply Hn. now right.
Qed.

Section Values.

Variable P : Type.
Variable P_eq_dec : forall x y : P, {x = y} + {x <> y}.
Variable sample_counts : P -> nat -> counts.
Variable n_shots : nat.
Variable sweep : list P.

Local Abbreviation sample := (sample_circuit sample_counts n_shots).
Local Abbreviation Mb := (measured_before sample sweep).
Local Abbreviation Fe := (expected_entry sample sweep).

Hypothesis sample_keys : forall p, NoDup (keys (sample p)).

Lemma expected_zero (i : nat) (b : string) (j : nat) :
  ~ Mb i b -> Fe i b j = 0%Q.
Proof.
  intros Hn. unfold expected_entry.
  destruct (Nat.ltb_spec j i) as [Hj|]; [|reflexivity].
  destruct (nth_error sweep j) as [p|] eqn:E; [|reflexivity].
  unfold lookup_count. rewrite dict_get_none; [reflexivity|].
  intros Hin. apply Hn. now exists j, p.
Qed.

Lemma lookup_count_absent (oc : counts) (b : string) :
  in_keys string_dec b oc = false -> lookup_count oc b = 0%Q.
Proof.
  unfold in_keys, lookup_count.
  destruct (in_dec string_dec b (keys oc)) as [|Hn]; [discriminate|].
  intros _. now rewrite dict_get_none.
Qed.

(** The outer loop over the sweep points still to be written. *)
Lemma outer_loop_holds (outcomes : dict P counts) (n : nat) :
  n = List.length sweep ->
  (forall p, In p sweep -> dict_get P_eq_dec outcomes p = Some (sample p)) ->
  forall (suffix : list P) (i : nat) (bc : dict string (list Q)),
    (forall k, k < List.length suffix ->
               nth_error suffix k = nth_error sweep (i + k)) ->
    i + List.length suffix <= n ->
    holds n (Mb i) (Fe i) bc ->
    exists bc',
      foldM (fun bitstring_counts (ik : nat * P) =>
               match dict_get P_eq_dec outcomes (snd ik) with
               | None => key_error
               | Some oc => foldM (record_count n (fst ik)) oc bitstring_counts
               end)
            (enumerate_from i suffix) bc = Ok bc'
      /\ holds n (Mb (i + List.length suffix)) (Fe (i + List.length suffix)) bc'.
Proof.
  intros Hn Hout. induction suffix as [|p suffix IH]; intros i bc Hsuf Hlen Hbc.
  - exists bc. cbn [List.length]. rewrite Nat.add_0_r. auto.
  - cbn [enumerate_from foldM fst snd List.length] in *.
    assert (Hp : nth_error sweep i = Some p).
    { specialize (Hsuf 0 (Nat.lt_0_succ _)). rewrite Nat.add_0_r in Hsuf.
      now rewrite <- Hsuf. }
    rewrite (Hout p (nth_error_In _ _ Hp)).
    destruct (@inner_loop_holds n i (sample p)) with
      (M := Mb i) (M' := Mb (S i)) (f := Fe i) (f' := Fe (S i)) (bc := bc)
      as (bc1 & -> & H1).
    + lia.
    + apply sample_keys.
    + exact Hbc.
    + intros b j. apply expected_zero.
    + intros b. unfold measured_before. split.
      * intros (j & q & Hj & Hq & Hin).
        destruct (Nat.eq_dec j i) as [->|Hne].
        -- right. rewrite Hp in Hq. now injection Hq as <-.
        -- left. exists j, q. split; [lia | auto].
      * intros [(j & q & Hj & Hq & Hin) | Hin].
        -- exists j, q. split; [lia | auto].
        -- exists i, p. split; [lia | auto].
    + intros b j Hj. unfold expected_entry.
      destruct (Nat.eqb_spec j i) as [->|Hne].
      * destruct (Nat.ltb_spec i (S i)); [|lia]. rewrite Hp.
        destruct (Nat.ltb_spec i i); [lia|]. cbn [andb].
        destruct (in_keys string_dec b (sample p)) eqn:E; [reflexivity|].
        now apply lookup_count_absent.
      * cbn [andb].
        destruct (Nat.ltb_spec j (S i)); destruct (Nat.ltb_spec j i);
          try reflexivity; lia.
    + cbn [bind].
      destruct (IH (S i) bc1) as (bc' & Hf & Hh).
      * intros k Hk. specialize (Hsuf (S k) (proj1 (Nat.succ_lt_mono _ _) Hk)).
        cbn [nth_error] in Hsuf. rewrite Hsuf. f_equal. lia.
      * lia.
      * exact H1.
      * exists bc'. split; [exact Hf|].
        replace (i + S (List.length suffix)) with (S i + List.length suffix) by lia.
        exact Hh.
Qed.

Lemma fill_from_fresh (l : list P) :
  forall d : dict P counts,
    NoDup (keys d ++ l) ->
    fold_left (fun outcomes p => dict_set P_eq_dec outcomes p (sample p)) l d
    = d ++ map (fun p => (p, sample p)) l.
Proof.
  induction l as [|p l IH]; intros d Hnd; cbn [fold_left map].
  - now rewrite app_nil_r.
  - assert (Hp : ~ In p (keys d)).
    { intros Hin. apply NoDup_remove_2 in Hnd. apply Hnd.
      apply in_or_app. now left. }
    rewrite (@dict_set_fresh P counts P_eq_dec d p (sample p) Hp).
    rewrite IH.
    + now rewrite <- app_assoc.
    + unfold keys in *. rewrite map_app. cbn [map fst].
      rewrite <- app_assoc. exact Hnd.
Qed.

Lemma fill_outcomes_nodup :
  NoDup sweep ->
  fill_outcomes P_eq_dec sample_counts n_shots sweep
  = map (fun p => (p, sample p)) sweep.
Proof.
  intros Hnd. unfold fill_outcomes. now rewrite fill_from_fresh.
Qed.

(** The rearrangement cell establishes the expected contents. *)
Lemma rearrange_holds :
  NoDup sweep ->
  exists bc,
    rearrange P_eq_dec sample_counts n_shots sweep = Ok bc
    /\ holds (List.length sweep) (Mb (List.length sweep))
             (Fe (List.length sweep)) bc.
Proof.
  intros Hnd. unfold rearrange. rewrite (fill_outcomes_nodup Hnd).
  assert (Hk : keys (map (fun p => (p, sample p)) sweep) = sweep).
  { unfold keys. rewrite map_map. cbn [fst]. apply map_id. }
  rewrite Hk. unfold enumerate.
  apply (@outer_loop_holds (map (fun p => (p, sample p)) sweep)
           (List.length sweep) eq_refl).
  - intros p Hin. now apply dict_get_map.
  - intros k _. reflexivity.
  - simpl. lia.
  - intros b. cbn. intros (j & q & Hj & _). lia.
Qed.

End Values.

(** X11: What the rearrangement cell computes, for a sweep of pairwise distinct
    points and counts dictionaries with distinct keys: it returns, and for
    every bitstring it stores, the array has one entry per sweep point, the
    entry of rank [j] being the count of this bitstring at the point of rank
    [j], and 0 where the bitstring was not measured. *)
Theorem rearrange_values (P : Type)
        (P_eq_dec : forall x y : P, {x = y} + {x <> y})
        (sample_counts : P -> nat -> counts) (n_shots : nat) (sweep : list P) :
  NoDup sweep ->
  (forall p, NoDup (keys (sample_counts p n_shots))) ->
  exists bc,
    rearrange P_eq_dec sample_counts n_shots sweep = Ok bc
    /\ forall b arr,
         dict_get string_dec bc b = Some arr ->
         List.length arr = List.length sweep
         /\ forall j p, nth_error sweep j = Some p ->
                        nth j arr 0%Q = lookup_count (sample_counts p n_shots) b.
Proof.
  intros Hnd Hkeys.
  destruct (@rearrange_holds P P_eq_dec sample_counts n_shots sweep Hkeys Hnd)
    as (bc & Hbc & Hh).
  exists bc. split; [exact Hbc|]. intros b arr Hget.
  specialize (Hh b). rewrite Hget in Hh. destruct Hh as (_ & Hl & Hn).
  split; [exact Hl|]. intros j p Hj.
  assert (Hlt : j < List.length sweep)
    by (apply nth_error_Some; congruence).
  rewrite (Hn j Hlt). unfold expected_entry.
  destruct (Nat.ltb_spec j (List.length sweep)); [|lia].
  now rewrite Hj.
Qed.

Lemma rearrange_values_witness :
  let sampler := fun (p : Z) (n : nat) =>
                   if (p =? 0)%Z then [("000"%string, Z.of_nat n)]
                   else [("000"%string, 1%Z); ("111"%string, (Z.of_nat n - 1)%Z)] in
  exists bc,
    rearrange Z.eq_dec sampler 10 [-1; 0; 1]%Z = Ok bc
    /\ forall b arr,
         dict_get string_dec bc b = Some arr ->
         List.length arr = 3
         /\ forall j p, nth_error [-1; 0; 1]%Z j = Some p ->
                        nth j arr 0%Q = lookup_count (sampler p 10) b.
Proof.
  intros sampler.
  apply (@rearrange_values Z Z.eq_dec sampler 10 [-1; 0; 1]%Z).
  - repeat constructor; simpl; intuition discriminate.
  - intros p. unfold sampler. destruct (p =? 0)%Z;
      repeat constructor; simpl; intuition discriminate.
Defined.

(** X12: The keys of [bitstring_counts] after the rearrangement cell are exactly
    the bitstrings measured at some point of the sweep (same
    hypotheses); for an empty sweep the dictionary is empty. *)
Theorem rearrange_keys (P : Type)
        (P_eq_dec : forall x y : P, {x = y} + {x <> y})
        (sample_counts : P -> nat -> counts) (n_shots : nat) (sweep : list P) :
  NoDup sweep ->
  (forall p, NoDup (keys (sample_counts p n_shots))) ->
  exists bc,
    rearrange P_eq_dec sample_counts n_shots sweep = Ok bc
    /\ (forall b, In b (keys bc)
                  <-> exists p, In p sweep
                                /\ In b (keys (sample_counts p n_shots)))
    /\ (sweep = [] -> bc = []).
Proof.
  intros Hnd Hkeys.
  destruct (@rearrange_holds P P_eq_dec sample_counts n_shots sweep Hkeys Hnd)
    as (bc & Hbc & Hh).
  exists bc. split; [exact Hbc|]. split.
  - intros b. specialize (Hh b). split.
    + intros Hin.
      destruct (dict_get_in_keys string_dec bc b Hin) as (arr & Hg & _).
      rewrite Hg in Hh. destruct Hh as ((j & p & _ & Hj & Hb) & _).
      exists p. split; [now apply nth_error_In in Hj | exact Hb].
    + intros (p & Hp & Hb).
      destruct (dict_get string_dec bc b) as [arr|] eqn:Hg.
      * now apply dict_get_some_in in Hg.
      * exfalso. apply Hh. apply In_nth_error in Hp. destruct Hp as [j Hj].
        exists j, p. split; [|auto].
        apply nth_error_Some. congruence.
  - intros ->. now injection Hbc as <-.
Qed.

Lemma rearrange_keys_witness :
  let sampler := fun (p : Z) (n : nat) =>
                   if (p =? 0)%Z then [("000"%string, Z.of_nat n)]
                   else [("000"%string, 1%Z); ("111"%string, (Z.of_nat n - 1)%Z)] in
  exists bc,
    rearrange Z.eq_dec sampler 10 [-1; 0; 1]%Z = Ok bc
    /\ (forall b, In b (keys bc)
                  <-> exists p, In p [-1; 0; 1]%Z /\ In b (keys (sampler p 10)))
    /\ ([-1; 0; 1]%Z = [] -> bc = []).
Proof.
  intros sampler.
  apply (@rearrange_keys Z Z.eq_dec sampler 10 [-1; 0; 1]%Z).
  - repeat constructor; simpl; intuition discriminate.
  - intros p. unfold sampler. destruct (p =? 0)%Z;
      repeat constructor; simpl; intuition discriminate.
Defined.

Lemma zip3_length {A B D} (a : list A) (b : list B) (d : list D) :
  List.length (zip3 a b d)
  = Nat.min (List.length a) (Nat.min (List.length b) (List.length d)).
Proof.
  revert b d. induction a as [|x a IH]; intros [|y b] [|z d]; simpl;
    try reflexivity; try lia.
  now rewrite IH.
Qed.


End SweepExtra.

Module IsingExtra.

Import Bitstrings BitstringsFacts BitstringsExtra Ising.

Lemma get_chars (s : string) :
  forall k, String.get k s = nth_error (chars s) k.
Proof.
  induction s as [|c s IH]; intros [|k]; simpl; auto.
Qed.

Lemma chars_str_repeat_I (k : nat) :
  chars (str_repeat_nat k "I") = repeat "I"%char k.
Proof.
  induction k as [|k IH]; simpl; [reflexivity | now rewrite IH].
Qed.

Lemma nth_error_repeat_lt {A} (a : A) (m k : nat) :
  k < m -> nth_error (repeat a m) k = Some a.
Proof.
  revert k. induction m as [|m IH]; intros [|k] Hk; simpl; try lia; auto.
  apply IH. lia.
Qed.

Lemma py_range_nat (n : nat) : py_range (Z.of_nat n) = map Z.of_nat (seq 0 n).
Proof. unfold py_range. now rewrite Nat2Z.id. Qed.

(** The label [s * "I" + mid + r * "I"], character by character. *)
Lemma padded_label (s r : nat) (mid : string) (k : nat) :
  String.get k (str_repeat_nat s "I" ++ mid ++ str_repeat_nat r "I")
  = if k <? s then Some "I"%char
    else if k <? s + String.length mid then String.get (k - s) mid
    else if k <? s + String.length mid + r then Some "I"%char
    else None.
Proof.
  rewrite get_chars, !chars_app, !chars_str_repeat_I.
  destruct (Nat.ltb_spec k s) as [H1|H1].
  - rewrite nth_error_app1 by (rewrite repeat_length; lia).
    now apply nth_error_repeat_lt.
  - rewrite nth_error_app2 by (rewrite repeat_length; lia).
    rewrite repeat_length.
    destruct (Nat.ltb_spec k (s + String.length mid)) as [H2|H2].
    + rewrite nth_error_app1 by (rewrite chars_length; lia).
      now rewrite get_chars.
    + rewrite nth_error_app2 by (rewrite chars_length; lia).
      rewrite chars_length.
      destruct (Nat.ltb_spec k (s + String.length mid + r)) as [H3|H3].
      * apply nth_error_repeat_lt. lia.
      * apply nth_error_None. rewrite repeat_length. lia.
Qed.

Lemma padded_label_length (s r : nat) (mid : string) :
  String.length (str_repeat_nat s "I" ++ mid ++ str_repeat_nat r "I")
  = s + String.length mid + r.
Proof.
  rewrite <- !chars_length, !chars_app, !chars_str_repeat_I.
  rewrite !length_app, !repeat_length. lia.
Qed.

Lemma hamiltonian_J_terms_nat (n : nat) (J : Z) :
  hamiltonian_J_terms (Z.of_nat n) J
  = map (fun s => ((- J)%Z,
                   (str_repeat_nat s "I" ++ "ZZ"
                    ++ str_repeat_nat (n - 2 - s) "I")%string))
        (seq 0 (n - 1)).
Proof.
  unfold hamiltonian_J_terms.
  unfold py_range.
  replace (Z.to_nat (Z.of_nat n - 1)) with (n - 1) by lia.
  rewrite map_map. apply map_ext. intros s.
  unfold str_repeat. rewrite Nat2Z.id.
  now replace (Z.to_nat (Z.of_nat n - 2 - Z.of_nat s)) with (n - 2 - s) by lia.
Qed.

Lemma hamiltonian_g_terms_nat (n : nat) (g : Z) :
  hamiltonian_g_terms (Z.of_nat n) g
  = map (fun s => (g,
                   (str_repeat_nat s "I" ++ "X"
                    ++ str_repeat_nat (n - 1 - s) "I")%string))
        (seq 0 (n - 1)).
Proof.
  unfold hamiltonian_g_terms.
  unfold py_range.
  replace (Z.to_nat (Z.of_nat n - 1)) with (n - 1) by lia.
  rewrite map_map. apply map_ext. intros s.
  unfold str_repeat. rewrite Nat2Z.id.
  now replace (Z.to_nat (Z.of_nat n - 1 - Z.of_nat s)) with (n - 1 - s) by lia.
Qed.

(** X14: The Hamiltonian of the rotation gates notebook: with [num_qubits <= 1]
    both sums are empty and [hamiltonian] is the integer 0, not an
    operator; with [num_qubits >= 2] it is an operator of
    [2 * (num_qubits - 1)] terms, the couplings with coefficient [-J] first
    and the field terms with coefficient [g] after them, and every label has
    exactly [num_qubits] characters, so that the terms can be added. *)
Theorem hamiltonian_shape (num_qubits : nat) (J g : Z) :
  (num_qubits <= 1 -> hamiltonian (Z.of_nat num_qubits) J g = Ok PyZero)
  /\ (2 <= num_qubits ->
      exists ts,
        hamiltonian (Z.of_nat num_qubits) J g = Ok (Op ts)
        /\ List.length ts = 2 * (num_qubits - 1)
        /\ map fst ts = repeat (- J)%Z (num_qubits - 1)
                        ++ repeat g (num_qubits - 1)
        /\ Forall (fun t => String.length (snd t) = num_qubits) ts).
Proof.
  unfold hamiltonian.
  rewrite hamiltonian_J_terms_nat, hamiltonian_g_terms_nat.
  split.
  - intros Hn. replace (num_qubits - 1) with 0 by lia. reflexivity.
  - intros Hn.
    destruct (num_qubits - 1) as [|m] eqn:E; [lia|].
    rewrite <- E. clear m E.
    set (tj := map _ (seq 0 (num_qubits - 1))).
    set (tg := map _ (seq 0 (num_qubits - 1))).
    assert (Hj : tj <> []).
    { unfold tj. destruct (num_qubits - 1) eqn:E; [lia | discriminate]. }
    assert (Hg : tg <> []).
    { unfold tg. destruct (num_qubits - 1) eqn:E; [lia | discriminate]. }
    exists (tj ++ tg). split.
    { destruct tj; [congruence|]. destruct tg; [congruence|]. reflexivity. }
    split.
    { unfold tj, tg. rewrite length_app, !length_map, !length_seq. lia. }
    split.
    { unfold tj, tg. rewrite map_app, !map_map. cbn [fst].
      now rewrite !map_const, length_seq. }
    apply Forall_app. split; apply Forall_forall; intros t Ht;
      apply in_map_iff in Ht; destruct Ht as (s0 & <- & Hs);
      apply in_seq in Hs; cbn [snd]; rewrite padded_label_length;
      simpl String.length; lia.
Qed.

(** X15: Where the Pauli operators sit: for [s < num_qubits - 1], the coupling
    term of rank [s] has a Z at the characters of rank [s] and [s + 1] and I
    elsewhere, and the field term of rank [s] has its single X at the
    character of rank [s].  The field terms stop at rank
    [num_qubits - 2]: no field term has an X at the last character. *)
Theorem hamiltonian_sites (num_qubits : nat) (J g : Z) (s : nat) :
  s < num_qubits - 1 ->
  (exists label,
      nth_error (hamiltonian_J_terms (Z.of_nat num_qubits) J) s
      = Some ((- J)%Z, label)
      /\ forall k, k < num_qubits ->
                   String.get k label
                   = Some (if (k =? s) || (k =? s + 1) then "Z"%char
                           else "I"%char))
  /\ (exists label,
         nth_error (hamiltonian_g_terms (Z.of_nat num_qubits) g) s
         = Some (g, label)
         /\ forall k, k < num_qubits ->
                      String.get k label
                      = Some (if k =? s then "X"%char else "I"%char))
  /\ (forall t, In t (hamiltonian_g_terms (Z.of_nat num_qubits) g) ->
                String.get (num_qubits - 1) (snd t) = Some "I"%char).
Proof.
  intros Hs. rewrite hamiltonian_J_terms_nat, hamiltonian_g_terms_nat.
  split; [|split].
  - eexists. split.
    + rewrite nth_error_map, nth_error_seq.
      destruct (Nat.ltb_spec s (num_qubits - 1)); [reflexivity | lia].
    + intros k Hk. cbn [Nat.add]. rewrite padded_label. simpl String.length.
      destruct (Nat.ltb_spec k s).
      * destruct (Nat.eqb_spec k s); [lia|].
        destruct (Nat.eqb_spec k (s + 1)); [lia | reflexivity].
      * destruct (Nat.ltb_spec k (s + 2)).
        -- destruct (Nat.eqb_spec k s) as [->|].
           ++ now rewrite Nat.sub_diag.
           ++ destruct (Nat.eqb_spec k (s + 1)) as [->|]; [|lia].
              now replace (s + 1 - s) with 1 by lia.
        -- destruct (Nat.eqb_spec k s); [lia|].
           destruct (Nat.eqb_spec k (s + 1)); [lia|].
           destruct (Nat.ltb_spec k (s + 2 + (num_qubits - 2 - s)));
             [reflexivity | lia].
  - eexists. split.
    + rewrite nth_error_map, nth_error_seq.
      destruct (Nat.ltb_spec s (num_qubits - 1)); [reflexivity | lia].
    + intros k Hk. cbn [Nat.add]. rewrite padded_label. simpl String.length.
      destruct (Nat.ltb_spec k s).
      * destruct (Nat.eqb_spec k s); [lia | reflexivity].
      * destruct (Nat.ltb_spec k (s + 1)).
        -- destruct (Nat.eqb_spec k s) as [->|]; [|lia].
           now rewrite Nat.sub_diag.
        -- destruct (Nat.eqb_spec k s); [lia|].
           destruct (Nat.ltb_spec k (s + 1 + (num_qubits - 1 - s)));
             [reflexivity | lia].
  - intros t Ht. apply in_map_iff in Ht. destruct Ht as (s0 & <- & Hs0).
    apply in_seq in Hs0. cbn [snd]. rewrite padded_label. simpl String.length.
    destruct (Nat.ltb_spec (num_qubits - 1) s0); [reflexivity|].
    destruct (Nat.ltb_spec (num_qubits - 1) (s0 + 1)); [lia|].
    destruct (Nat.ltb_spec (num_qubits - 1) (s0 + 1 + (num_qubits - 1 - s0)));
      [reflexivity | lia].
Qed.

Lemma hamiltonian_sites_witness :
  (exists label,
      nth_error (hamiltonian_J_terms (Z.of_nat 6) 2) 4 = Some ((- (2))%Z, label)
      /\ forall k, k < 6 ->
                   String.get k label
                   = Some (if (k =? 4) || (k =? 4 + 1) then "Z"%char
                           else "I"%char))
  /\ (exists label,
         nth_error (hamiltonian_g_terms (Z.of_nat 6) 1) 4 = Some (1%Z, label)
         /\ forall k, k < 6 ->
                      String.get k label
                      = Some (if k =? 4 then "X"%char else "I"%char))
  /\ (forall t, In t (hamiltonian_g_terms (Z.of_nat 6) 1) ->
                String.get (6 - 1) (snd t) = Some "I"%char).
Proof.
  apply (@hamiltonian_sites 6 2 1 4). lia.
Defined.

End IsingExtra.

Module PlotsExtra.

Import Hardware Sweep SweepExtra QFTCheck QFTCheckFacts Plots.


Local Open Scope R_scope.

Lemma fold_max_ge_init (l : list R) : forall a, a <= fold_left Rmax l a.
Proof.
  induction l as [|x l IH]; intros a; simpl; [lra|].
  eapply Rle_trans; [apply Rmax_l | apply IH].
Qed.

Lemma fold_max_ge_in (l : list R) :
  forall a x, In x l -> x <= fold_left Rmax l a.
Proof.
  induction l as [|y l IH]; intros a x Hin; simpl; [contradiction|].
  destruct Hin as [->|Hin].
  - eapply Rle_trans; [apply Rmax_r | apply fold_max_ge_init].
  - now apply IH.
Qed.

Lemma fold_max_in (l : list R) : forall a, In (fold_left Rmax l a) (a :: l).
Proof.
  induction l as [|y l IH]; intros a; simpl; [now left|].
  destruct (IH (Rmax a y)) as [E|Hin].
  - rewrite <- E. unfold Rmax. destruct (Rle_dec a y); auto.
  - auto.
Qed.

Lemma cabs2_nonneg (z : complex) : 0 <= cabs2 z.
Proof. unfold cabs2. nra. Qed.

(** X17: The series [check_results] plots, [np.abs(a) / np.max(np.abs(a))]: on a
    vector with a non zero entry it has the length of the vector, all its
    values lie between 0 and 1, and the value 1 is reached (at the largest
    modulus); on an empty vector [np.max] raises. *)
Theorem normalized_abs_peak (a : list complex) :
  (exists z, In z a /\ cabs2 z <> 0) ->
  exists l, normalized_abs a = Ok l
            /\ List.length l = List.length a
            /\ Forall (fun v => 0 <= v <= 1) l
            /\ In 1 l.
Proof.
  intros (z & Hz & Hz0). unfold normalized_abs.
  destruct a as [|z0 a]; [contradiction|].
  cbn [map np_max bind].
  set (abs0 := sqrt (cabs2 z0)). set (absl := map (fun z => sqrt (cabs2 z)) a).
  set (m := fold_left Rmax absl abs0).
  assert (Hall : forall v, In v (abs0 :: absl) -> 0 <= v <= m).
  { intros v [<- | Hv].
    - split; [apply sqrt_pos | apply fold_max_ge_init].
    - split; [|now apply fold_max_ge_in].
      unfold absl in Hv. apply in_map_iff in Hv. destruct Hv as (w & <- & _).
      apply sqrt_pos. }
  assert (Hm : 0 < m).
  { assert (Hs : 0 < sqrt (cabs2 z)).
    { apply sqrt_lt_R0. pose proof (cabs2_nonneg z). lra. }
    assert (Hin : In (sqrt (cabs2 z)) (abs0 :: absl)).
    { destruct Hz as [<- | Hz]; [now left | right].
      unfold absl. now apply (in_map (fun w => sqrt (cabs2 w))). }
    destruct (Hall _ Hin). lra. }
  eexists. split; [reflexivity|]. split; [|split].
  - cbn [List.length]. unfold absl. now rewrite !length_map.
  - change (abs0 / m :: map (fun v => v / m) absl)
      with (map (fun v => v / m) (abs0 :: absl)).
    apply Forall_forall. intros v Hv. apply in_map_iff in Hv.
    destruct Hv as (w & <- & Hw). destruct (Hall w Hw) as [H0 H1].
    split.
    + apply Rmult_le_pos; [exact H0|]. left. now apply Rinv_0_lt_compat.
    + apply (Rmult_le_reg_r m); [exact Hm|].
      unfold Rdiv. rewrite Rmult_assoc, Rinv_l by lra. lra.
  - change (abs0 / m :: map (fun v => v / m) absl)
      with (map (fun v => v / m) (abs0 :: absl)).
    apply in_map_iff. exists m. split.
    + unfold Rdiv. apply Rinv_r. lra.
    + apply fold_max_in.
Qed.

Lemma normalized_abs_peak_witness :
  exists l, normalized_abs [(3, 4); (0, 0); (0, 1)] = Ok l
            /\ List.length l = List.length [(3, 4); (0, 0); (0, 1)]
            /\ Forall (fun v => 0 <= v <= 1) l
            /\ In 1 l.
Proof.
  apply normalized_abs_peak. exists (0, 1). split.
  - right. right. left. reflexivity.
  - unfold cabs2. simpl. lra.
Defined.

End PlotsExtra.

Module HardwareExtra.

Import Hardware HardwareFacts.

Section Facts.

Variable job isa_circuit : Type.
Variable pm_run : sdk_answer isa_circuit.
Variable estimator_run : isa_circuit -> list Q -> sdk_answer job.
Variable job_result : job -> sdk_answer (list estimator_result).


End Facts.

End HardwareExtra.

Module TargetsExtra.

Import Bitstrings Binary BitstringsFacts BitstringsExtra HardwareCircuit.

(** X19: [get_targets] on a Hamiltonian of [n >= 1] qubits, whose [2^n]
    eigenvalues numpy returns with an [argmax] inside the state: for an
    index in range it returns the eigenvalue and eigenvector of this index
    and a bitstring of exactly [n] characters 0 or 1, the binary digits of
    the position of the largest component; the index [-1] means the last
    eigenvalue. *)
Theorem get_targets_bitstring (matrix_t vector_t : Type)
        (eigh : matrix_t -> list Q * (nat -> vector_t))
        (argmax : vector_t -> nat) (hamiltonian : matrix_t)
        (n : nat) (idx : Z) :
  1 <= n ->
  List.length (fst (eigh hamiltonian)) = 2 ^ n ->
  (forall v, argmax v < 2 ^ n) ->
  (0 <= idx < Z.of_nat (2 ^ n))%Z ->
  (exists b,
      get_targets eigh argmax hamiltonian idx
      = Ok (nth (Z.to_nat idx) (fst (eigh hamiltonian)) 0%Q,
            snd (eigh hamiltonian) (Z.to_nat idx), b)
      /\ String.length b = n
      /\ is_binary b
      /\ bits_value (chars b) 0
         = Z.of_nat (argmax (snd (eigh hamiltonian) (Z.to_nat idx))))
  /\ get_targets eigh argmax hamiltonian (-1)
     = get_targets eigh argmax hamiltonian (Z.of_nat (2 ^ n) - 1).
Proof.
  intros Hn Hlen Harg Hidx. unfold get_targets.
  destruct (eigh hamiltonian) as [eigvals eigvecs]. cbn [fst snd] in *.
  rewrite Hlen.
  assert (Hpos : 2 ^ n <> 0) by (apply Nat.pow_nonzero; lia).
  assert (Hlog : int_log2 (2 ^ n) = Ok n).
  { unfold int_log2. destruct (2 ^ n) eqn:E; [lia|].
    rewrite <- E. f_equal. apply Nat.log2_pow2. lia. }
  assert (H2 : 2 <= 2 ^ n).
  { change 2 with (2 ^ 1) at 1. apply Nat.pow_le_mono_r; lia. }
  split.
  - destruct (Z.eqb_spec idx (-1)); [lia|].
    unfold np_index.
    destruct (Z.leb_spec 0 idx); [|lia].
    destruct (Z.ltb_spec idx (Z.of_nat (2 ^ n))); [|lia].
    cbn [andb bind]. rewrite Hlog. cbn [bind].
    eexists. split; [reflexivity|].
    set (a := argmax (eigvecs (Z.to_nat idx))).
    assert (Ha : (0 <= Z.of_nat a < 2 ^ Z.of_nat n)%Z).
    { split; [lia|]. pose proof (Harg (eigvecs (Z.to_nat idx))) as Hb.
      fold a in Hb. apply Nat2Z.inj_lt in Hb.
      rewrite Nat2Z.inj_pow in Hb. exact Hb. }
    split; [now apply to_bitstring_length|].
    split; [apply to_bitstring_binary | apply bits_value_to_bitstring]; lia.
  - change (-1 =? -1)%Z with true. cbv iota.
    destruct (Z.eqb_spec (Z.of_nat (2 ^ n) - 1) (-1)); [lia | reflexivity].
Qed.

Lemma get_targets_bitstring_witness :
  let eigh := fun _ : unit => ([-3; -1; 1; 3]%Q, fun i : nat => i) in
  let argmax := fun v : nat => v mod 4 in
  (exists b,
      get_targets eigh argmax tt 2
      = Ok (nth (Z.to_nat 2) (fst (eigh tt)) 0%Q, snd (eigh tt) (Z.to_nat 2), b)
      /\ String.length b = 2
      /\ is_binary b
      /\ bits_value (chars b) 0 = Z.of_nat (argmax (snd (eigh tt) (Z.to_nat 2))))
  /\ get_targets eigh argmax tt (-1)
     = get_targets eigh argmax tt (Z.of_nat (2 ^ 2) - 1).
Proof.
  intros eigh argmax.
  apply (@get_targets_bitstring unit nat eigh argmax tt 2 2).
  - lia.
  - reflexivity.
  - intros v. unfold argmax. apply Nat.mod_upper_bound. discriminate.
  - simpl. lia.
Defined.

End TargetsExtra.

Module CircuitsExtra.

Import Bitstrings Circuits CircuitShape CircuitsFacts.

Section Facts.

Variable C : Type.
Variable cadd : C -> C -> C.
Variable cconj : C -> C.
Variable cmul_i : C -> C.
Variable cscale : Z -> C -> C.
Variable random_complex : nat -> matrix C.
Variable expm : matrix C -> matrix C.
Variable trace : matrix C -> C.
Variable mdiv : matrix C -> C -> matrix C.
Variable phase_t psi_t : Type.
Variable get_random_phase_and_psi : matrix C -> phase_t * psi_t.

Local Abbreviation rham := (rham cadd cconj random_complex).
Local Abbreviation irham r2 := (mmul_i cmul_i (rham r2)).
Local Abbreviation U m r2 := (expm (mscale cscale (2 ^ Z.of_nat m) (irham r2))).
Local Abbreviation qpe_circuit :=
  (qpe_circuit cadd cconj cmul_i cscale random_complex expm trace mdiv
               get_random_phase_and_psi).

(** The instructions of the circuit, for a first register that is not
    empty. *)
Lemma qpe_circuit_data (r1 r2 : nat) :
  1 <= r1 ->
  exists phase psi,
    qpe_circuit r1 r2
    = Ok (Circuit [("first"%string, r1); ("second"%string, r2)]
                  (map (fun q => Instr (HGate C) [q]) (seq 0 r1)
                   ++ map (fun m => Instr (ControlledGate 1 (UnitaryGate (U m r2)))
                                          (m :: seq r1 r2)) (seq 0 r1)
                   ++ [Instr (QFT C r1 true true) (seq 0 r1)]),
          phase, psi).
Proof.
  intros Hr1. unfold Circuits.qpe_circuit.
  change (register_qubits (Circuit [("first"%string, r1); ("second"%string, r2)]
                                   (@nil (instruction C))) 0)
    with (seq 0 r1).
  replace (register_qubits (Circuit [("first"%string, r1); ("second"%string, r2)]
                                    (@nil (instruction C))) 1)
    with (seq r1 r2)
    by (unfold register_qubits; simpl; now rewrite Nat.add_0_r).
  rewrite h_spec. cbn [qregs data app].
  set (us := enumerate _).
  destruct (qpe_loop_spec get_random_phase_and_psi (seq r1 r2) us
              (Loop (Circuit [("first"%string, r1); ("second"%string, r2)]
                             (map (fun q => Instr (HGate C) [q]) (seq 0 r1)))
                    true (@None (phase_t * psi_t))))
    as (Hc & Hp & _).
  cbv zeta in Hc, Hp. rewrite Hc, Hp. clear Hc Hp.
  assert (Hus : us = map (fun m => (m, U m r2)) (seq 0 r1)).
  { unfold us, enumerate.
    rewrite (random_unitary_iter_eq cadd cconj cmul_i cscale random_complex
                                    expm trace mdiv).
    rewrite enumerate_from_map, enumerate_from_seq, map_map. reflexivity. }
  rewrite Hus, map_map. cbn [fst snd loop_circ loop_flag data qregs app].
  rewrite length_seq.
  destruct r1 as [|r1']; [lia|].
  cbn [seq map fst snd].
  destruct (get_random_phase_and_psi (U 0 r2)) as [ph ps].
  exists ph, ps. unfold append. cbn [data qregs].
  rewrite <- app_assoc. reflexivity.
Qed.

(** X20: The circuit [qpe_circuit] builds is one the SDK accepts: for [r1 >= 1]
    and matrices of side [2^r2] (an exponential as large as its argument),
    it returns a circuit of [r1 + r2] qubits and [2 * r1 + 1]
    instructions, and every instruction acts on pairwise distinct qubits of
    the circuit, as many as its gate has; in particular no control qubit is
    among its targets. *)
Theorem qpe_circuit_well_formed (r1 r2 : nat) :
  1 <= r1 ->
  (forall a, side (expm a) = side a) ->
  (forall n, side (random_complex n) = n) ->
  exists circ phase psi,
    qpe_circuit r1 r2 = Ok (circ, phase, psi)
    /\ num_qubits_of circ = r1 + r2
    /\ List.length (data circ) = 2 * r1 + 1
    /\ Forall (well_formed (r1 + r2)) (data circ).
Proof.
  intros Hr1 Hexpm Hrand.
  destruct (qpe_circuit_data r2 Hr1) as (phase & psi & Hq).
  eexists. exists phase, psi. split; [exact Hq|].
  split; [unfold num_qubits_of; cbn [qregs fold_right snd]; lia|].
  cbn [data]. split.
  { rewrite !length_app, !length_map, length_seq. cbn [List.length]. lia. }
  assert (Hseq : forall a n b, Forall (fun q => q < b) (seq a n) <-> a + n <= b \/ n = 0).
  { intros a n b. rewrite Forall_forall. split.
    - intros H. destruct n as [|n]; [now right | left].
      specialize (H (a + n)). rewrite in_seq in H. lia.
    - intros H q Hq'. apply in_seq in Hq'. lia. }
  apply Forall_app. split; [|apply Forall_app; split].
  - apply Forall_forall. intros i Hi. apply in_map_iff in Hi.
    destruct Hi as (q & <- & Hq'). apply in_seq in Hq'.
    split; [|split]; cbn [qargs operation gate_num_qubits].
    + repeat constructor. simpl. tauto.
    + repeat constructor. lia.
    + reflexivity.
  - apply Forall_forall. intros i Hi. apply in_map_iff in Hi.
    destruct Hi as (m & <- & Hm). apply in_seq in Hm.
    split; [|split]; cbn [qargs operation gate_num_qubits].
    + constructor; [|apply seq_NoDup].
      rewrite in_seq. lia.
    + constructor; [lia|]. apply Hseq. lia.
    + cbn [List.length]. rewrite length_seq, Hexpm. cbn [side mscale mmul_i].
      unfold Circuits.rham. cbn [side madd]. rewrite Hrand.
      now rewrite Nat.log2_pow2 by lia.
  - constructor; [|constructor].
    split; [|split]; cbn [qargs operation gate_num_qubits].
    + apply seq_NoDup.
    + apply Hseq. lia.
    + apply length_seq.
Qed.

End Facts.

Lemma qpe_circuit_well_formed_witness :
  exists circ phase psi,
    Circuits.qpe_circuit Z.add (fun z => z) Z.opp Z.mul
      (fun n => Matrix n (fun i j => Z.of_nat (i + j)))
      (fun a => a) (fun a => entry a 0 0)
      (fun a _ => a) (fun a => (entry a 0 1, entry a 1 0)) 7 2
    = Ok (circ, phase, psi)
    /\ num_qubits_of circ = 7 + 2
    /\ List.length (data circ) = 2 * 7 + 1
    /\ Forall (well_formed (7 + 2)) (data circ).
Proof.
  apply (@qpe_circuit_well_formed Z Z.add (fun z => z) Z.opp Z.mul
           (fun n => Matrix n (fun i j => Z.of_nat (i + j)))
           (fun a => a) (fun a => entry a 0 0) (fun a _ => a) Z Z
           (fun a => (entry a 0 1, entry a 1 0)) 7 2).
  - lia.
  - reflexivity.
  - reflexivity.
Defined.

End CircuitsExtra.
